(** * Comet Slider: a shallow embedding of [src/comet-slider.js]

    The development follows the [CometSlider] class.  The second class of
    the file, [Slider], shares [next], [prev], the guard of [show],
    [_activateIndex], [_getDirectImg], [_fadeImages] and the frame
    arithmetic of [_webglTransition] word for word.  It differs in how it
    obtains the library (a dynamic import, no component check), in having
    no try/catch around the setup and the frame callback, in switching at
    once when a session is rejected, and in not defining [_emitChange].

    What is tracked of the browser:
    - every slide's [data-active] attribute and its direct children;
    - the slider fields [index], [_isAnimating] and the options read by the
      code ([animation], [duration], [loop], [onChange]);
    - the global [THREE] object as the set of its truthy properties, and
      whether a WebGL context can be created;
    - per GPU session: whether the overlay canvas is attached, the life
      cycle of renderer, geometry, material and the two textures, the
      [progress] and [time] uniforms and the pending frame request;
    - every invocation of the [onChange] callback with its two arguments.

    JavaScript numbers that are slide positions are integers ([Z], [%] is
    [Z.rem]); time stamps and durations are rationals ([Q]) standing for
    the doubles of the source.  The state machine computes the progress of
    a session in exact rationals ([progress]); the frame arithmetic itself
    is also given as the engine computes it, rounded to binary64
    ([progress64]), and the properties of the progress value are proved of
    that.  One event of the model is one task of the event loop together
    with the promise reactions it triggers. *)

From Stdlib Require Import ZArith QArith Qminmax Qround Qpower.
From Stdlib Require Import Lia Lqa String.
From stdpp Require Import base list strings gmap.

Local Open Scope Z_scope.

(** ** The document *)

(** A direct child of a slide [<div>]: an [<img src=...>] or anything else. *)
Inductive node :=
| Img (src : string)
| Elem (tagName : string).

Record slide := Slide {
  active : bool;          (* the data-active attribute *)
  children : list node
}.

Definition is_img (c : node) : bool :=
  match c with Img _ => true | Elem _ => false end.

(** [slideEl.querySelector(':scope > img')] *)
Definition querySelector_scope_img (slideEl : slide) : option node :=
  List.find is_img (children slideEl).

Definition _getDirectImg (slideEl : slide) : option node :=
  match querySelector_scope_img slideEl with
  | Some scoped => Some scoped
  | None => List.find is_img (children slideEl)
  end.

(** [arr[i]] for a JavaScript number [i]: [undefined] outside the array. *)
Definition slide_at (l : list slide) (i : Z) : option slide :=
  if 0 <=? i then l !! Z.to_nat i else None.

(** [el.setAttribute('data-active', b)] for the element at position [i]. *)
Definition mark (i : Z) (b : bool) (l : list slide) : list slide :=
  match slide_at l i with
  | Some el => <[Z.to_nat i := Slide b (children el)]> l
  | None => l
  end.

(** ** Options and the graphics library *)

Inductive animation := AnimWave | AnimRipple | AnimNone.

Record options := Options {
  opt_animation : animation;
  opt_duration : Q;
  opt_loop : bool;
  opt_onChange : bool       (* a callback function was supplied *)
}.

Definition defaultOptions : options :=
  Options AnimWave (900 # 1) true false.

Record three_lib := Three {
  props : list string;      (* the truthy properties of the THREE object *)
  webgl_context : bool      (* new WebGLRenderer can obtain a context *)
}.

Definition has (lib : three_lib) (name : string) : bool :=
  existsb (String.eqb name) (props lib).

Definition requiredComponents : list string :=
  ["WebGLRenderer"; "Scene"; "OrthographicCamera"; "PlaneGeometry";
   "ShaderMaterial"; "TextureLoader"]%string.

Definition missingComponents (lib : three_lib) : list string :=
  List.filter (fun comp => negb (has lib comp)) requiredComponents.

(** ** A GPU transition session *)

(** The value of [(now - start) / dur]: division by zero does not throw in
    JavaScript, it yields an infinity or NaN. *)
Inductive number :=
| Num (q : Q)
| Infinity
| NegInfinity
| NaN.

Definition divide (x d : Q) : number :=
  if Qeq_bool d 0 then
    match (x ?= 0)%Q with
    | Gt => Infinity
    | Lt => NegInfinity
    | Eq => NaN
    end
  else Num (x / d).

(** [Math.min(1, x)] *)
Definition Math_min_1 (x : number) : number :=
  match x with
  | Num q => Num (Qmin 1 q)
  | Infinity => Num 1
  | NegInfinity => NegInfinity
  | NaN => NaN
  end.

(** [t < 1] *)
Definition lt_1 (t : number) : bool :=
  match t with
  | Num q => negb (Qle_bool 1 q)
  | NegInfinity => true
  | Infinity | NaN => false
  end.

(** [const t = Math.min(1, (now - start) / dur)] *)
Definition progress (dur start now : Q) : number :=
  Math_min_1 (divide (now - start) dur).

Inductive resource := Absent | Live | Disposed.

Record session := Session {
  canvas : bool;            (* the overlay canvas is in the document *)
  renderer : resource;
  geometry : resource;
  material : resource;
  tex0 : resource;
  tex1 : resource;
  uProgress : number;       (* uniforms.progress.value *)
  uTime : Q;                (* uniforms.time.value *)
  raf : bool                (* a frame callback is scheduled *)
}.

Definition no_session : session :=
  Session false Absent Absent Absent Absent Absent (Num 0) 0 false.

(** ** The slider *)

Inductive pending :=
| FadeTimer (fromIndex toIndex : Z)
| TextureLoad (fromIndex toIndex : Z) (lib : three_lib) (g : session)
| FrameLoop (fromIndex toIndex : Z) (g : session) (start : Q).

Record slider := Slider {
  slides : list slide;
  index : Z;
  _isAnimating : bool;
  opts : options;
  THREE : option three_lib;       (* window.THREE *)
  calls : list (Z * Z);           (* onChange(a, b) invocations, oldest first *)
  task : option pending           (* the asynchronous work in flight *)
}.

Definition with_slides (l : list slide) (s : slider) : slider :=
  Slider l (index s) (_isAnimating s) (opts s) (THREE s) (calls s) (task s).
Definition with_index (i : Z) (s : slider) : slider :=
  Slider (slides s) i (_isAnimating s) (opts s) (THREE s) (calls s) (task s).
Definition with_isAnimating (b : bool) (s : slider) : slider :=
  Slider (slides s) (index s) b (opts s) (THREE s) (calls s) (task s).
Definition with_calls (c : list (Z * Z)) (s : slider) : slider :=
  Slider (slides s) (index s) (_isAnimating s) (opts s) (THREE s) c (task s).
Definition with_task (p : option pending) (s : slider) : slider :=
  Slider (slides s) (index s) (_isAnimating s) (opts s) (THREE s) (calls s) p.

(** A method either returns, or throws with the state as it was then. *)
Inductive completion :=
| Returns (s : slider)
| Throws (s : slider).

Definition state_of (c : completion) : slider :=
  match c with Returns s => s | Throws s => s end.

Definition js := slider -> completion.

Definition and_then (m k : js) : js :=
  fun s => match m s with Returns s' => k s' | Throws s' => Throws s' end.

Notation "m ;> k" := (and_then m k) (at level 62, right associativity).

Definition update (f : slider -> slider) : js := fun s => Returns (f s).

(** [new Slider(root, options)]: [divs] are the direct [<div>] children. *)
Definition initial (divs : list (list node)) (o : options)
    (three : option three_lib) : slider :=
  Slider (imap (fun i c => Slide (bool_decide (i = 0%nat)) c) divs)
         0 false o three [] None.

Definition constructor (divs : list (list node)) (o : options)
    (three : option three_lib) : option slider :=
  match divs with
  | [] => None                    (* No slides found *)
  | _ :: _ => Some (initial divs o three)
  end.

Definition _activateIndex (idx : Z) : js := fun s =>
  match slide_at (slides s) (index s) with
  | None => Throws s
  | Some _ =>
    let s1 := with_slides (mark (index s) false (slides s)) s in
    match slide_at (slides s1) idx with
    | None => Throws s1
    | Some _ =>
      Returns (with_index idx (with_slides (mark idx true (slides s1)) s1))
    end
  end.

Definition _emitChange (fromIndex toIndex : Z) : js := fun s =>
  if opt_onChange (opts s)
  then Returns (with_calls (calls s ++ [(toIndex, fromIndex)]) s)
  else Returns s.

(** The synchronous part of [_fadeImages]; the timeout is [FadeTimer]. *)
Definition _fadeImages (fromSlide toSlide : Z) : js := fun s =>
  let l := mark fromSlide true (mark toSlide true (slides s)) in
  Returns (with_task (Some (FadeTimer fromSlide toSlide)) (with_slides l s)).

(** The [done] callback that [show] hands to [_fadeImages], and the
    reaction it attaches with [then]. *)
Definition finish (fromIndex toIndex : Z) : js :=
  _activateIndex toIndex ;>
  update (with_isAnimating false) ;>
  _emitChange fromIndex toIndex.

(** The timeout callback of [_fadeImages]. *)
Definition fade_timeout (fromSlide toSlide : Z) : js :=
  update (fun s => with_task None
    (with_slides (mark toSlide true (mark fromSlide false (slides s))) s)) ;>
  finish fromSlide toSlide.

(** ** [_webglTransition] *)

Definition dispose (r : resource) : resource :=
  match r with Live => Disposed | Absent => Absent | Disposed => Disposed end.

(** [_webglTransition] from the call up to [await Promise.all([...])]. *)
Inductive begun :=
| BeginRejected (g : session)
| BeginAwait (lib : three_lib) (g : session).

Definition _webglTransition (three : option three_lib) : begun :=
  match three with
  | None => BeginRejected no_session            (* Three.js not found *)
  | Some lib =>
    match missingComponents lib with
    | _ :: _ => BeginRejected no_session        (* components incomplete *)
    | [] =>
      (* try { ... fromSlide.appendChild(canvas) *)
      let g :=
        Session true Absent Absent Absent Absent Absent (Num 0) 0 false in
      if webgl_context lib then
        (* new WebGLRenderer; new Scene; new OrthographicCamera;
           new PlaneBufferGeometry or new PlaneGeometry; new TextureLoader *)
        BeginAwait lib
          (Session true Live Live Absent Absent Absent (Num 0) 0 false)
      else
        (* the renderer constructor throws: } catch (error) { reject } *)
        BeginRejected g
    end
  end.

(** [_webglTransition] from the settlement of the two texture loads up to
    the first [requestAnimationFrame(step)]. *)
Inductive loaded :=
| LoadRejected (g : session)
| LoadRunning (g : session).

Definition _webglTransition_loaded (lib : three_lib) (ok0 ok1 : bool)
    (g : session) : loaded :=
  let t0 := if ok0 then Live else Absent in
  let t1 := if ok1 then Live else Absent in
  let g1 := Session (canvas g) (renderer g) (geometry g) (material g)
                    t0 t1 (uProgress g) (uTime g) (raf g) in
  if ok0 && ok1 then
    if has lib "Vector2" then
      (* new ShaderMaterial *)
      let g2 := Session (canvas g1) (renderer g1) (geometry g1) Live
                        t0 t1 (Num 0) 0 (raf g1) in
      if has lib "Mesh" then
        LoadRunning (Session (canvas g2) (renderer g2) (geometry g2)
                             (material g2) t0 t1 (Num 0) 0 true)
      else LoadRejected g2        (* new THREE.Mesh is a TypeError *)
    else LoadRejected g1          (* new THREE.Vector2 is a TypeError *)
  else LoadRejected g1.           (* await Promise.all rejects *)

(** One call of the frame callback [step(now)]. *)
Inductive stepped :=
| StepAgain (g : session)
| StepResolved (g : session)
| StepRejected (g : session).

Definition step (dur start now : Q) (render_ok : bool) (g : session)
    : stepped :=
  let t := progress dur start now in
  let time := ((now - start) * (1 # 1000))%Q in
  if render_ok then
    if lt_1 t then
      StepAgain (Session (canvas g) (renderer g) (geometry g) (material g)
                         (tex0 g) (tex1 g) t time true)
    else
      (* cancelAnimationFrame; dispose everything; canvas.remove() *)
      StepResolved
        (Session false (dispose (renderer g)) (dispose (geometry g))
                 (dispose (material g)) (dispose (tex0 g)) (dispose (tex1 g))
                 t time false)
  else
    (* catch (stepError): cancelAnimationFrame; canvas.remove(); reject *)
    StepRejected (Session false (renderer g) (geometry g) (material g)
                          (tex0 g) (tex1 g) t time false).

(** ** Navigation *)

Definition show (toIndex : Z) : js := fun s =>
  if _isAnimating s || (toIndex =? index s) then Returns s else
  let fromIndex := index s in
  match slide_at (slides s) fromIndex with
  | None => Throws s              (* _getDirectImg(undefined) *)
  | Some fromSlide =>
    match slide_at (slides s) toIndex with
    | None => Throws s            (* _getDirectImg(undefined) *)
    | Some toSlide =>
      match _getDirectImg fromSlide, _getDirectImg toSlide with
      | Some fromImg, Some toImg =>
        let s1 := with_isAnimating true s in
        match opt_animation (opts s1) with
        | AnimNone => _fadeImages fromIndex toIndex s1
        | AnimWave | AnimRipple =>
          match _webglTransition (THREE s1) with
          | BeginAwait lib g =>
            Returns (with_task (Some (TextureLoad fromIndex toIndex lib g)) s1)
          | BeginRejected _ =>
            (* .catch: falling back to fade *)
            _fadeImages fromIndex toIndex s1
          end
        end
      | _, _ =>
        (* instant switch if images are missing *)
        _activateIndex toIndex s
      end
    end
  end.

(** [(to + this.slides.length) % this.slides.length] *)
Definition wrap (len to : Z) : Z := Z.rem (to + len) len.

Definition next_index (len i : Z) : Z := wrap len (i + 1).
Definition prev_index (len i : Z) : Z := wrap len (i - 1).

Definition slides_length (s : slider) : Z := Z.of_nat (length (slides s)).

Definition next : js := fun s =>
  let to := index s + 1 in
  if (slides_length s <=? to) && negb (opt_loop (opts s)) then Returns s
  else show (next_index (slides_length s) (index s)) s.

Definition prev : js := fun s =>
  let to := index s - 1 in
  if (to <? 0) && negb (opt_loop (opts s)) then Returns s
  else show (prev_index (slides_length s) (index s)) s.

(** ** The event loop *)

Inductive event :=
| Next                                  (* a call of next(), also by autoplay *)
| Prev
| Show (i : Z)
| Timeout                               (* the timer of _fadeImages fires *)
| Textures (ok0 ok1 : bool) (now : Q)   (* both loads settled at time now *)
| Frame (now : Q) (render_ok : bool).   (* an animation frame at time now *)

Definition handle (e : event) : js := fun s =>
  match e, task s with
  | Next, _ => next s
  | Prev, _ => prev s
  | Show i, _ => show i s
  | Timeout, Some (FadeTimer f t) => fade_timeout f t s
  | Textures ok0 ok1 now, Some (TextureLoad f t lib g) =>
    match _webglTransition_loaded lib ok0 ok1 g with
    | LoadRunning g' =>
      (* both slides active; const start = performance.now() *)
      Returns (with_task (Some (FrameLoop f t g' now))
                (with_slides (mark f true (mark t true (slides s))) s))
    | LoadRejected _ => _fadeImages f t s
    end
  | Frame now render_ok, Some (FrameLoop f t g start) =>
    match step (opt_duration (opts s)) start now render_ok g with
    | StepAgain g' => Returns (with_task (Some (FrameLoop f t g' start)) s)
    | StepResolved _ =>
      (update (fun s => with_task None
         (with_slides (mark t true (mark f false (slides s))) s)) ;>
       finish f t) s
    | StepRejected _ => _fadeImages f t s
    end
  | _, _ => Returns s
  end.

(** The state after a sequence of events; a thrown error is reported by
    the browser and the page goes on. *)
Definition run (es : list event) (s : slider) : slider :=
  fold_left (fun s e => state_of (handle e s)) es s.

(** ** Examples *)

Definition two_photos : list (list node) :=
  [[Img "a.jpg"; Elem "H2"]; [Img "b.jpg"]]%string.

Definition three_full : three_lib :=
  Three (requiredComponents ++
         ["Vector2"%string; "Mesh"%string; "LinearFilter"%string]) true.

Definition fresh (divs : list (list node)) (o : options)
    (three : option three_lib) : slider :=
  default (Slider [] 0 false o three [] None) (constructor divs o three).

(** ** Vocabulary of the properties *)

Definition valid (s : slider) (i : Z) : Prop := 0 <= i < slides_length s.

Definition marked (l : list slide) (i : Z) : bool :=
  match slide_at l i with Some el => active el | None => false end.

(** The slides carrying the marker are those whose position satisfies [P]. *)
Definition markers_are (l : list slide) (P : Z -> Prop) : Prop :=
  forall i, 0 <= i < Z.of_nat (length l) -> marked l i = true <-> P i.

(** Where the slider is heading: the target of the transition in flight, or
    the current index when there is none. *)
Definition destination (s : slider) : Z :=
  match task s with
  | Some (FadeTimer _ t) => t
  | Some (TextureLoad _ t _ _) => t
  | Some (FrameLoop _ t _ _) => t
  | None => index s
  end.

(** What holds of index, flag and markers between any two events. *)
Definition inv (s : slider) : Prop :=
  valid s (index s) /\
  match task s with
  | None =>
    _isAnimating s = false /\
    markers_are (slides s) (fun i => i = index s)
  | Some (TextureLoad f t _ _) =>
    _isAnimating s = true /\ f = index s /\ valid s t /\
    markers_are (slides s) (fun i => i = f)
  | Some (FadeTimer f t) | Some (FrameLoop f t _ _) =>
    _isAnimating s = true /\ f = index s /\ valid s t /\
    markers_are (slides s) (fun i => i = f \/ i = t)
  end.

(** The transition a pending task belongs to, and whether the task is still
    the texture load that precedes the first frame. *)
Definition transition_of (p : pending) : Z * Z :=
  match p with
  | FadeTimer f t => (f, t)
  | TextureLoad f t _ _ => (f, t)
  | FrameLoop f t _ _ => (f, t)
  end.

Definition loading (p : pending) : bool :=
  match p with TextureLoad _ _ _ _ => true | _ => false end.

(** The frames one session renders when the browser calls [step] with the
    time stamps [nows] in turn and rendering succeeds: every rendered frame
    with its time stamp and the value of the progress uniform, and whether
    the loop finalised. *)
Fixpoint frame_loop (dur start : Q) (g : session) (nows : list Q)
    : list (Q * number) * bool :=
  match nows with
  | [] => ([], false)
  | now :: rest =>
    match step dur start now true g with
    | StepAgain g' =>
      let (frames, finalised) := frame_loop dur start g' rest in
      ((now, uProgress g') :: frames, finalised)
    | StepResolved g' => ([(now, uProgress g')], true)
    | StepRejected g' => ([(now, uProgress g')], false)
    end
  end.

(** ** The frame arithmetic in binary64

    [progress] above computes line 392 in exact rationals, which is all the
    life cycle of a session depends on.  The engine computes it in IEEE 754
    binary64: [now - start] is rounded to the nearest double, and so is its
    quotient by [dur].  The definitions below follow that arithmetic; a
    double is the rational it denotes, and [0] stands for either zero. *)

Definition pow2 (z : Z) : Q := (2 ^ z)%Q.

(** The binary exponent of a positive rational: [2^e <= q < 2^(e+1)]. *)
Definition ilog2 (q : Q) : Z :=
  let e0 := Z.log2 (Qnum q) - Z.log2 (Zpos (Qden q)) in
  if Qle_bool (pow2 e0) q then e0 else e0 - 1.

(** Rounding to the nearest integer, ties to even. *)
Definition rne (q : Q) : Z :=
  let f := Qfloor q in
  match (q - inject_Z f ?= 1 # 2)%Q with
  | Lt => f
  | Gt => f + 1
  | Eq => if Z.even f then f else f + 1
  end.

(** The exponent of the last of the 53 bits of the significand; it stops
    at that of the subnormal numbers. *)
Definition last_bit (q : Q) : Z := Z.max (ilog2 q - 52) (-1074).

Definition round_pos (q : Q) : Q :=
  (inject_Z (rne (q / pow2 (last_bit q))) * pow2 (last_bit q))%Q.

(** The double nearest to [q]; what rounds to [2^1024] or beyond
    overflows. *)
Definition round64 (q : Q) : number :=
  match (q ?= 0)%Q with
  | Eq => Num 0
  | Gt =>
    let r := round_pos q in
    if Qle_bool (pow2 1024) r then Infinity else Num r
  | Lt =>
    let r := round_pos (- q) in
    if Qle_bool (pow2 1024) r then NegInfinity else Num (- r)
  end.

Definition is_double (d : Q) : bool :=
  match round64 d with
  | Num r => Qeq_bool r d
  | _ => false
  end.

(** [now - start] *)
Definition minus64 (a b : Q) : number := round64 (a - b).

(** [x / d] *)
Definition divide64 (x : number) (d : Q) : number :=
  match x with
  | Num q =>
    if Qeq_bool d 0 then
      match (q ?= 0)%Q with
      | Gt => Infinity
      | Lt => NegInfinity
      | Eq => NaN
      end
    else round64 (q / d)
  | Infinity =>
    if Qeq_bool d 0 || Qle_bool 0 d then Infinity else NegInfinity
  | NegInfinity =>
    if Qeq_bool d 0 || Qle_bool 0 d then NegInfinity else Infinity
  | NaN => NaN
  end.

(** [const t = Math.min(1, (now - start) / dur)] *)
Definition progress64 (dur start now : Q) : number :=
  Math_min_1 (divide64 (minus64 now start) dur).

(** The frames of one session whose renders succeed, as [frame_loop] has
    them: [step] assigns [t] to the progress uniform, renders, and
    reschedules itself if [t < 1]; otherwise it finalises. *)
Fixpoint frame_loop64 (dur start : Q) (nows : list Q)
    : list (Q * number) * bool :=
  match nows with
  | [] => ([], false)
  | now :: rest =>
    let t := progress64 dur start now in
    if lt_1 t then
      let '(frames, finalised) := frame_loop64 dur start rest in
      ((now, t) :: frames, finalised)
    else ([(now, t)], true)
  end.

(** The order of numbers; NaN compares with nothing. *)
Definition number_le (a b : number) : Prop :=
  match a, b with
  | NaN, _ | _, NaN => False
  | NegInfinity, _ => True
  | _, Infinity => True
  | Num x, Num y => (x <= y)%Q
  | Infinity, Num _ => False
  | Num _, NegInfinity => False
  | Infinity, NegInfinity => False
  end.

(** A positive double is a whole multiple of the weight of the last of the
    53 bits of its binade. *)
Definition fine (x : Q) : Prop :=
  exists m : Z, (x == inject_Z m * pow2 (ilog2 x - 52))%Q.

Definition photo_then_text : list (list node) :=
  [[Img "a.jpg"]; [Elem "P"]]%string.

Definition with_callback (a : animation) : options := Options a 300 true true.

(** Nothing of a session is left over: canvas out of the document, and
    no renderer, geometry, material or texture still alive. *)
Definition released (g : session) : Prop :=
  canvas g = false /\ renderer g <> Live /\ geometry g <> Live /\
  material g <> Live /\ tex0 g <> Live /\ tex1 g <> Live.

(** What no event changes: the number of slides and the options. *)
Definition same_frame (s s' : slider) : Prop :=
  length (slides s') = length (slides s) /\ opts s' = opts s.

(** The events of an environment in which whatever can fail does: a pending
    texture load fails, a pending frame fails to render, and the timer of
    the fade fires. *)
Definition settle : list event :=
  [Textures false false 0; Frame 0 false; Timeout].

(** [k] rounds of [next], each run to the end of its transition. *)
Fixpoint next_rounds (k : nat) : list event :=
  match k with
  | O => []
  | S k => next_rounds k ++ Next :: settle
  end.

(** ** The vocabulary of further properties *)

(** What a completed transition from [f] to [t] adds to the call log. *)
Definition emitted (o : options) (f t : Z) : list (Z * Z) :=
  if opt_onChange o then [(t, f)] else [].

(** A session in its frame loop: canvas in the document, everything alive. *)
Definition running (g : session) : Prop :=
  canvas g = true /\ renderer g = Live /\ geometry g = Live /\
  material g = Live /\ tex0 g = Live /\ tex1 g = Live.

(** The outcome of the frame callback over a sequence of frames, each with
    its stamp and whether rendering succeeds: [step] is called again as long
    as it rescheduled itself. *)
Fixpoint frames_end (dur start : Q) (g : session) (frames : list (Q * bool))
    : stepped :=
  match frames with
  | [] => StepAgain g
  | (now, render_ok) :: rest =>
    match step dur start now render_ok g with
    | StepAgain g' => frames_end dur start g' rest
    | StepResolved g' => StepResolved g'
    | StepRejected g' => StepRejected g'
    end
  end.

(** ** Autoplay: [play], [stop], [destroy] *)

(** A slider with its autoplay timer.  [setInterval] hands out positive
    handles, one after the other; [intervals] are the intervals of this
    slider that the browser still runs. *)
Record player := Player {
  core : slider;
  opt_interval : Q;                 (* options.interval *)
  _timer : option positive;         (* this._timer, null or a handle *)
  intervals : gset positive;
  next_handle : positive            (* what the next setInterval returns *)
}.

Definition with_core (s : slider) (p : player) : player :=
  Player s (opt_interval p) (_timer p) (intervals p) (next_handle p).

Definition stop (p : player) : player :=
  match _timer p with
  | Some id =>
    (* clearInterval(this._timer); this._timer = null *)
    Player (core p) (opt_interval p) None (intervals p ∖ {[id]})
           (next_handle p)
  | None => p
  end.

Definition play (p : player) : player :=
  let p := stop p in
  (* this._timer = setInterval(() => this.next(), this.options.interval) *)
  Player (core p) (opt_interval p) (Some (next_handle p))
         ({[next_handle p]} ∪ intervals p) (Pos.succ (next_handle p)).

Definition destroy (p : player) : player := stop p.

(** The constructor with the [autoplay] and [interval] options. *)
Definition new_player (divs : list (list node)) (o : options)
    (autoplay : bool) (interval : Q) (three : option three_lib)
    : option player :=
  match constructor divs o three with
  | None => None
  | Some s =>
    let p := Player s interval None ∅ 1%positive in
    Some (if autoplay then play p else p)
  end.

Inductive command :=
| Play
| Stop
| Destroy
| Tick (id : positive)        (* the browser fires the interval [id] *)
| Do (e : event).

Definition exec (c : command) (p : player) : player :=
  match c with
  | Play => play p
  | Stop => stop p
  | Destroy => destroy p
  | Tick id =>
    if decide (id ∈ intervals p)
    then with_core (state_of (next (core p))) p
    else p
  | Do e => with_core (state_of (handle e (core p))) p
  end.

Definition execs (cs : list command) (p : player) : player :=
  fold_left (fun p c => exec c p) cs p.

(** The running intervals are the one remembered in [_timer], if any. *)
Definition timer_inv (p : player) : Prop :=
  intervals p = match _timer p with Some id => {[id]} | None => ∅ end /\
  forall id, id ∈ intervals p -> (id < next_handle p)%positive.

(** The states a constructed slider can be in between two events. *)
Definition reachable (s : slider) : Prop :=
  exists divs o three s0 es,
    constructor divs o three = Some s0 /\ s = run es s0.

(** The slide at position [i] has an image as a direct child. *)
Definition has_image (s : slider) (i : Z) : Prop :=
  exists el n, slide_at (slides s) i = Some el /\ _getDirectImg el = Some n.

(** The five things an event can do to a slider. *)
Definition unchanged (s s' : slider) : Prop := s' = s.

Definition starts (s s' : slider) : Prop :=
  task s = None /\ _isAnimating s' = true /\
  index s' = index s /\ calls s' = calls s /\
  exists p t, task s' = Some p /\ transition_of p = (index s, t).

Definition switches (s s' : slider) : Prop :=
  task s = None /\ task s' = None /\ _isAnimating s' = false /\
  calls s' = calls s.

Definition goes_on (s s' : slider) : Prop :=
  index s' = index s /\ calls s' = calls s /\ _isAnimating s' = true /\
  exists p p', task s = Some p /\ task s' = Some p' /\
               transition_of p' = transition_of p.

Definition completes (s s' : slider) : Prop :=
  exists p t, task s = Some p /\ transition_of p = (index s, t) /\
    task s' = None /\ _isAnimating s' = false /\ index s' = t /\
    calls s' = calls s ++ emitted (opts s) (index s) t.

(** A library of the time when [PlaneBufferGeometry] was still exported. *)
Definition three_older : three_lib :=
  Three ("PlaneBufferGeometry"%string :: props three_full) true.

(** ** The class [Slider] *)

(** The second class of the file.  A [Slider] has the fields of a
    [CometSlider]; one more thing can be pending, the dynamic imports at
    the head of its [_webglTransition].  It does not read [window.THREE]. *)
Module SliderClass.

Record state := State {
  base : slider;
  importing : option (Z * Z)    (* fromIndex, toIndex awaiting import(...) *)
}.

Inductive outcome :=
| Done (st : state)
| Uncaught (st : state).        (* an error reached the browser *)

Definition state_after (r : outcome) : state :=
  match r with Done st => st | Uncaught st => st end.

(** A method that only touches the fields shared with [CometSlider]. *)
Definition lift (m : js) (st : state) : outcome :=
  match m (base st) with
  | Returns s => Done (State s (importing st))
  | Throws s => Uncaught (State s (importing st))
  end.

(** The class has no method [_emitChange]: calling it is a TypeError. *)
Definition _emitChange (fromIndex toIndex : Z) : js := fun s => Throws s.

(** The body shared by the [done] callback of the fade and the two promise
    reactions of [show]. *)
Definition finish (fromIndex toIndex : Z) : js :=
  _activateIndex toIndex ;>
  update (with_isAnimating false) ;>
  _emitChange fromIndex toIndex.

(** [.then(finish).catch(finish)] on a resolved promise: an error thrown by
    the first reaction is caught by the second. *)
Definition then_catch (fromIndex toIndex : Z) : js := fun s =>
  match finish fromIndex toIndex s with
  | Returns s' => Returns s'
  | Throws s' => finish fromIndex toIndex s'
  end.

Definition fade_timeout (fromSlide toSlide : Z) : js :=
  update (fun s => with_task None
    (with_slides (mark toSlide true (mark fromSlide false (slides s))) s)) ;>
  finish fromSlide toSlide.

Definition show (toIndex : Z) (st : state) : outcome :=
  let s := base st in
  if _isAnimating s || (toIndex =? index s) then Done st else
  let fromIndex := index s in
  match slide_at (slides s) fromIndex with
  | None => Uncaught st
  | Some fromSlide =>
    match slide_at (slides s) toIndex with
    | None => Uncaught st
    | Some toSlide =>
      match _getDirectImg fromSlide, _getDirectImg toSlide with
      | Some fromImg, Some toImg =>
        let s1 := with_isAnimating true s in
        match opt_animation (opts s1) with
        | AnimNone =>
          lift (_fadeImages fromIndex toIndex) (State s1 (importing st))
        | AnimWave | AnimRipple =>
          (* _webglTransition suspends at its first await import(...) *)
          Done (State s1 (Some (fromIndex, toIndex)))
        end
      | _, _ => lift (_activateIndex toIndex) st
      end
    end
  end.

Definition next (st : state) : outcome :=
  let s := base st in
  let to := index s + 1 in
  if (slides_length s <=? to) && negb (opt_loop (opts s)) then Done st
  else show (next_index (slides_length s) (index s)) st.

Definition prev (st : state) : outcome :=
  let s := base st in
  let to := index s - 1 in
  if (to <? 0) && negb (opt_loop (opts s)) then Done st
  else show (prev_index (slides_length s) (index s)) st.

(** [_webglTransition] from the imports to [await Promise.all([...])]:
    every class is taken from the module without a check. *)
Definition setup (lib : three_lib) : begun :=
  let g0 :=
    Session true Absent Absent Absent Absent Absent (Num 0) 0 false in
  if has lib "WebGLRenderer" && webgl_context lib then
    let g1 := Session true Live Absent Absent Absent Absent (Num 0) 0 false in
    if has lib "Scene" && has lib "OrthographicCamera" then
      if has lib "PlaneBufferGeometry" then
        let g2 :=
          Session true Live Live Absent Absent Absent (Num 0) 0 false in
        if has lib "TextureLoader" then BeginAwait lib g2
        else BeginRejected g2
      else BeginRejected g1
    else BeginRejected g1
  else BeginRejected g0.

Definition loaded (lib : three_lib) (ok0 ok1 : bool) (g : session)
    : loaded :=
  let t0 := if ok0 then Live else Absent in
  let t1 := if ok1 then Live else Absent in
  let g1 := Session (canvas g) (renderer g) (geometry g) (material g)
                    t0 t1 (uProgress g) (uTime g) (raf g) in
  if ok0 && ok1 then
    if has lib "Vector2" && has lib "ShaderMaterial" then
      let g2 := Session (canvas g1) (renderer g1) (geometry g1) Live
                        t0 t1 (Num 0) 0 (raf g1) in
      if has lib "Mesh" then
        LoadRunning (Session (canvas g2) (renderer g2) (geometry g2)
                             (material g2) t0 t1 (Num 0) 0 true)
      else LoadRejected g2
    else LoadRejected g1
  else LoadRejected g1.

Inductive input :=
| Ev (e : event)
| Imported (lib : option three_lib) (effects_ok : bool).

Definition handle (e : input) (st : state) : outcome :=
  let s := base st in
  match e with
  | Ev Next => next st
  | Ev Prev => prev st
  | Ev (Show i) => show i st
  | Ev Timeout =>
    match task s with
    | Some (FadeTimer f t) => lift (fade_timeout f t) st
    | _ => Done st
    end
  | Imported lib effects_ok =>
    match importing st with
    | Some (f, t) =>
      let st0 := State s None in
      match lib with
      | Some l =>
        if effects_ok then
          match setup l with
          | BeginAwait l' g =>
            Done (State (with_task (Some (TextureLoad f t l' g)) s) None)
          | BeginRejected _ => lift (finish f t) st0
          end
        else lift (finish f t) st0
      | None => lift (finish f t) st0
      end
    | None => Done st
    end
  | Ev (Textures ok0 ok1 now) =>
    match task s with
    | Some (TextureLoad f t lib g) =>
      match loaded lib ok0 ok1 g with
      | LoadRunning g' =>
        Done (State (with_task (Some (FrameLoop f t g' now))
                (with_slides (mark f true (mark t true (slides s))) s))
              (importing st))
      | LoadRejected _ => lift (update (with_task None) ;> finish f t) st
      end
    | _ => Done st
    end
  | Ev (Frame now render_ok) =>
    match task s with
    | Some (FrameLoop f t g start) =>
      if render_ok then
        match step (opt_duration (opts s)) start now true g with
        | StepAgain g' =>
          Done (State (with_task (Some (FrameLoop f t g' start)) s)
                      (importing st))
        | StepResolved _ =>
          lift (update (fun s => with_task None
                  (with_slides (mark t true (mark f false (slides s))) s)) ;>
                then_catch f t) st
        | StepRejected _ => Done st
        end
      else
        (* render throws out of the frame callback: nothing is scheduled
           any more and the promise is never settled *)
        Uncaught (State (with_task None s) (importing st))
    | _ => Done st
    end
  end.

Definition run (es : list input) (st : state) : state :=
  fold_left (fun st e => state_after (handle e st)) es st.

End SliderClass.

(** * Properties *)

(** ** Array access and the active marker *)

Lemma slide_at_Some (l : list slide) i :
  is_Some (slide_at l i) <-> 0 <= i < Z.of_nat (length l).
Proof.
  unfold slide_at. destruct (Z.leb_spec 0 i) as [Hi|Hi].
  - rewrite lookup_lt_is_Some. lia.
  - split; [intros [x Hx]; discriminate | lia].
Qed.

Lemma slide_at_None (l : list slide) i :
  slide_at l i = None <-> ~ (0 <= i < Z.of_nat (length l)).
Proof.
  rewrite <- slide_at_Some, eq_None_not_Some. reflexivity.
Qed.

Lemma length_mark i b (l : list slide) : length (mark i b l) = length l.
Proof.
  unfold mark. destruct (slide_at l i); [apply length_insert | reflexivity].
Qed.

Lemma slide_at_mark i b (l : list slide) j :
  slide_at (mark i b l) j =
  if j =? i then (fun el => Slide b (children el)) <$> slide_at l i
  else slide_at l j.
Proof.
  unfold mark. destruct (Z.eqb_spec j i) as [->|Hne].
  - destruct (slide_at l i) as [el|] eqn:E; simpl; [|exact E].
    assert (Hr : 0 <= i < Z.of_nat (length l))
      by (apply slide_at_Some; rewrite E; eauto).
    unfold slide_at. destruct (Z.leb_spec 0 i); [|lia].
    apply list_lookup_insert_eq. lia.
  - destruct (slide_at l i) as [el|] eqn:E; [|reflexivity].
    assert (Hr : 0 <= i < Z.of_nat (length l))
      by (apply slide_at_Some; rewrite E; eauto).
    unfold slide_at. destruct (Z.leb_spec 0 j); [|reflexivity].
    apply list_lookup_insert_ne. lia.
Qed.

Lemma marked_mark i b (l : list slide) j :
  0 <= i < Z.of_nat (length l) ->
  marked (mark i b l) j = if j =? i then b else marked l j.
Proof.
  intros Hr. unfold marked. rewrite slide_at_mark.
  destruct (Z.eqb_spec j i); [|reflexivity].
  apply slide_at_Some in Hr. destruct Hr as [el ->]. reflexivity.
Qed.

(** ** The guard of [show] *)

Lemma show_noop_guard (s : slider) (i : Z) :
  _isAnimating s = true \/ i = index s -> show i s = Returns s.
Proof.
  intros [Ha | ->]; unfold show.
  - rewrite Ha. reflexivity.
  - rewrite Z.eqb_refl, orb_true_r. reflexivity.
Qed.

(** C6: [show(i)] while a transition is in progress, or with [i] the current
    index, returns at once: index, animating flag, every slide's marker and
    the pending work are what they were, and nothing new is started. *)
Theorem show_noop_when_animating_or_same (s : slider) (i : Z) :
  _isAnimating s = true \/ i = index s ->
  show i s = Returns s /\
  index (state_of (show i s)) = index s /\
  _isAnimating (state_of (show i s)) = _isAnimating s /\
  slides (state_of (show i s)) = slides s /\
  task (state_of (show i s)) = task s /\
  calls (state_of (show i s)) = calls s.
Proof.
  intros H. rewrite (show_noop_guard s i H). repeat split.
Qed.

Lemma show_noop_when_animating_or_same_witness :
  let s := run [Show 1] (fresh two_photos defaultOptions (Some three_full)) in
  (_isAnimating s = true \/ 0 = index s) /\ show 0 s = Returns s.
Proof.
  split; [left; reflexivity |].
  apply (show_noop_when_animating_or_same _ 0). left. reflexivity.
Defined.

(** C10 (as amended): [show(i)] with [i] outside [0, slideCount), called
    while no transition is in progress, throws while the animating flag is
    still unset; called while a transition is in progress it returns without
    throwing; either way the slider is left exactly as it was before the
    call. *)
Theorem show_out_of_range_throws (s : slider) (i : Z) :
  ~ (0 <= i < slides_length s) ->
  i <> index s ->
  (_isAnimating s = false ->
     show i s = Throws s /\ _isAnimating (state_of (show i s)) = false) /\
  (_isAnimating s = true -> show i s = Returns s) /\
  state_of (show i s) = s.
Proof.
  intros Hout Hne.
  assert (Hidle : _isAnimating s = false -> show i s = Throws s).
  { intros Hidle. unfold show. rewrite Hidle. simpl.
    destruct (Z.eqb_spec i (index s)); [contradiction|].
    destruct (slide_at (slides s) (index s)); [|reflexivity].
    apply slide_at_None in Hout. rewrite Hout. reflexivity. }
  assert (Hbusy : _isAnimating s = true -> show i s = Returns s).
  { intros Hbusy. unfold show. rewrite Hbusy. reflexivity. }
  split; [|split].
  - intros H. rewrite (Hidle H). split; [reflexivity | exact H].
  - exact Hbusy.
  - destruct (_isAnimating s) eqn:E;
      [rewrite Hbusy | rewrite Hidle]; reflexivity.
Qed.

Lemma show_out_of_range_throws_witness :
  let s := fresh two_photos defaultOptions None in
  show 2 s = Throws s /\ state_of (show 2 s) = s.
Proof.
  intros s.
  destruct (show_out_of_range_throws s 2) as (H1 & _ & H3).
  - unfold slides_length; simpl; lia.
  - simpl; lia.
  - split; [apply H1; reflexivity | exact H3].
Defined.

(** C10 as first stated does not hold: on a slider in transition [show]
    with an index outside the slides does not throw, the guard returns. *)
Lemma show_out_of_range_silent_when_animating :
  let s := run [Show 1] (initial two_photos defaultOptions (Some three_full)) in
  ~ (0 <= 2 < slides_length s) /\ 2 <> index s /\
  _isAnimating s = true /\
  show 2 s = Returns s /\ show 2 s <> Throws s.
Proof.
  intros s. repeat apply conj; try reflexivity.
  - unfold slides_length. simpl. lia.
  - discriminate.
  - discriminate.
Qed.

(** ** [next] and [prev] *)

Lemma wrap_mod len to : 0 < len -> 0 <= to + len -> wrap len to = to mod len.
Proof.
  intros Hlen Hto. unfold wrap.
  rewrite Z.rem_mod_nonneg by lia.
  rewrite <- (Z.mul_1_l len) at 1. apply Z.mod_add. lia.
Qed.

Lemma next_index_mod len i :
  0 <= i < len -> next_index len i = (i + 1) mod len.
Proof. intros H. unfold next_index. apply wrap_mod; lia. Qed.

Lemma prev_index_mod len i :
  0 <= i < len -> prev_index len i = (i - 1) mod len.
Proof. intros H. unfold prev_index. apply wrap_mod; lia. Qed.

Lemma next_index_valid len i :
  0 <= i < len -> 0 <= next_index len i < len.
Proof. intros H. rewrite next_index_mod by lia. apply Z.mod_pos_bound. lia. Qed.

Lemma prev_index_valid len i :
  0 <= i < len -> 0 <= prev_index len i < len.
Proof. intros H. rewrite prev_index_mod by lia. apply Z.mod_pos_bound. lia. Qed.

Lemma iter_next_index len i (k : nat) :
  0 <= i < len ->
  Nat.iter k (next_index len) i = (i + Z.of_nat k) mod len.
Proof.
  intros H. induction k as [|k IH].
  - simpl. rewrite Z.add_0_r. symmetry. apply Z.mod_small. lia.
  - rewrite Nat.iter_succ, IH.
    rewrite next_index_mod by (apply Z.mod_pos_bound; lia).
    rewrite Z.add_mod_idemp_l by lia. f_equal. lia.
Qed.

(** With looping enabled [next] always asks [show] for the wrapped
    successor, and [prev] for the wrapped predecessor. *)
Lemma next_looping (s : slider) :
  opt_loop (opts s) = true ->
  next s = show (next_index (slides_length s) (index s)) s.
Proof. intros H. unfold next. rewrite H, andb_false_r. reflexivity. Qed.

Lemma prev_looping (s : slider) :
  opt_loop (opts s) = true ->
  prev s = show (prev_index (slides_length s) (index s)) s.
Proof. intros H. unfold prev. rewrite H, andb_false_r. reflexivity. Qed.

(** C7: with [len >= 1] slides and any starting index, the index update of
    [next] applied [len] times comes back to the start; [next] then [prev],
    and [prev] then [next], come back to the start as well. *)
Theorem next_prev_cycle (len i : Z) :
  1 <= len ->
  0 <= i < len ->
  Nat.iter (Z.to_nat len) (next_index len) i = i /\
  prev_index len (next_index len i) = i /\
  next_index len (prev_index len i) = i.
Proof.
  intros Hlen Hi. repeat split.
  - rewrite iter_next_index by lia. rewrite Z2Nat.id by lia.
    rewrite <- (Z.mul_1_l len) at 1. rewrite Z.mod_add by lia.
    apply Z.mod_small. lia.
  - rewrite prev_index_mod by (apply next_index_valid; lia).
    rewrite next_index_mod by lia.
    rewrite Zminus_mod_idemp_l.
    replace (i + 1 - 1) with i by lia. apply Z.mod_small. lia.
  - rewrite next_index_mod by (apply prev_index_valid; lia).
    rewrite prev_index_mod by lia.
    rewrite Z.add_mod_idemp_l by lia.
    replace (i - 1 + 1) with i by lia. apply Z.mod_small. lia.
Qed.

Lemma next_prev_cycle_witness :
  Nat.iter (Z.to_nat 3) (next_index 3) 2 = 2 /\
  prev_index 3 (next_index 3 2) = 2 /\
  next_index 3 (prev_index 3 2) = 2.
Proof. apply next_prev_cycle; lia. Defined.

Lemma show_destination (s : slider) (t : Z) :
  _isAnimating s = false -> task s = None ->
  valid s (index s) -> valid s t ->
  exists s', show t s = Returns s' /\ destination s' = t.
Proof.
  intros Hidle Htask Hi Ht. unfold show. rewrite Hidle. simpl.
  destruct (Z.eqb_spec t (index s)) as [->|Hne].
  { exists s. split; [reflexivity|]. unfold destination. now rewrite Htask. }
  unfold valid, slides_length in *.
  destruct (proj2 (slide_at_Some (slides s) (index s)) Hi) as [a Ha].
  destruct (proj2 (slide_at_Some (slides s) t) Ht) as [b Hb].
  rewrite Ha, Hb.
  assert (Hact : exists s', _activateIndex t s = Returns s'
                            /\ destination s' = t).
  { unfold _activateIndex. rewrite Ha. simpl.
    destruct (proj2 (slide_at_Some (mark (index s) false (slides s)) t))
      as [c Hc]; [rewrite length_mark; lia|].
    rewrite Hc. eexists. split; [reflexivity|].
    unfold destination. simpl. now rewrite Htask. }
  destruct (_getDirectImg a), (_getDirectImg b); try exact Hact.
  simpl. destruct (opt_animation (opts s)).
  3: { eexists; split; reflexivity. }
  all: destruct (_webglTransition (THREE s)); eexists; split; reflexivity.
Qed.


(** C9: with exactly one slide [next] and [prev] return with the slider
    untouched whatever the loop option is: the wrapped target is the current
    index 0, which the guard of [show] rejects. *)
Theorem single_slide_is_fixed (s : slider) :
  slides_length s = 1 ->
  index s = 0 ->
  next_index (slides_length s) (index s) = 0 /\
  prev_index (slides_length s) (index s) = 0 /\
  next s = Returns s /\
  prev s = Returns s.
Proof.
  intros Hlen Hidx.
  assert (Hshow : show 0 s = Returns s)
    by (apply show_noop_guard; right; congruence).
  unfold next, prev. rewrite Hlen, Hidx.
  change (next_index 1 0) with 0. change (prev_index 1 0) with 0.
  repeat split; destruct (opt_loop (opts s)); simpl; auto.
Qed.


Lemma single_slide_is_fixed_witness :
  let s := fresh [[Img "a.jpg"]] defaultOptions None in
  next s = Returns s /\ prev s = Returns s.
Proof.
  set (s := fresh [[Img "a.jpg"]] defaultOptions None).
  destruct (single_slide_is_fixed s eq_refl eq_refl) as (_ & _ & Hn & Hp).
  split; assumption.
Defined.

(** ** The active marker across the event loop *)

Ltac conjs := repeat match goal with |- _ /\ _ => split end.

(** Settles a goal [markers_are (mark .. (mark .. l)) P] from the one
    hypothesis [markers_are l Q] in the context. *)
Ltac markers :=
  let i := fresh "i" in
  let Hi := fresh "Hi" in
  intros i Hi; rewrite ?length_mark in Hi;
  repeat rewrite marked_mark by (rewrite ?length_mark; lia);
  repeat match goal with
         | |- context [?a =? ?b] => destruct (Z.eqb_spec a b)
         end;
  try match goal with
      | H : markers_are _ _ |- _ => specialize (H i Hi)
      end;
  intuition (try discriminate; try lia; try congruence).

Lemma inv_initial divs o three : divs <> [] -> inv (initial divs o three).
Proof.
  intros Hne. unfold inv, valid, slides_length, initial, markers_are.
  cbn [task _isAnimating slides index]. rewrite length_imap.
  split; [destruct divs; [congruence | simpl; lia]|].
  split; [reflexivity|].
  intros i Hi. unfold marked, slide_at.
  destruct (Z.leb_spec 0 i); [|lia].
  rewrite list_lookup_imap.
  destruct (lookup_lt_is_Some_2 divs (Z.to_nat i)) as [c ->]; [lia|].
  simpl. rewrite bool_decide_eq_true. lia.
Qed.

Lemma inv_constructor divs o three s :
  constructor divs o three = Some s -> inv s.
Proof.
  unfold constructor. destruct divs as [|d ds] eqn:E; [discriminate|].
  intros [= <-]. now apply inv_initial.
Qed.

Lemma inv_fadeImages (s : slider) f t :
  valid s (index s) -> f = index s -> valid s t ->
  _isAnimating s = true ->
  markers_are (slides s) (fun i => i = f) \/
  markers_are (slides s) (fun i => i = f \/ i = t) ->
  inv (state_of (_fadeImages f t s)).
Proof.
  unfold valid, slides_length. intros Hi -> Ht Ha Hm.
  unfold _fadeImages, inv, valid, slides_length. simpl.
  rewrite !length_mark. conjs; try assumption; try lia.
  destruct Hm as [Hm|Hm]; markers.
Qed.

(** [_activateIndex] cannot throw on a valid pair of positions. *)
Lemma activateIndex_returns (s : slider) idx :
  valid s (index s) -> valid s idx ->
  _activateIndex idx s =
  Returns (with_index idx
    (with_slides (mark idx true (mark (index s) false (slides s))) s)).
Proof.
  unfold valid, slides_length. intros Hi Ht. unfold _activateIndex.
  destruct (proj2 (slide_at_Some (slides s) (index s)) Hi) as [a ->].
  cbn [slides with_slides].
  destruct (proj2 (slide_at_Some (mark (index s) false (slides s)) idx))
    as [c ->]; [rewrite length_mark; lia|].
  reflexivity.
Qed.

Lemma finish_returns (s : slider) f t :
  valid s (index s) -> valid s t ->
  finish f t s =
  _emitChange f t (with_isAnimating false (with_index t
    (with_slides (mark t true (mark (index s) false (slides s))) s))).
Proof.
  intros Hi Ht. unfold finish, and_then.
  rewrite activateIndex_returns by assumption. reflexivity.
Qed.

Lemma inv_emitChange (s : slider) f t :
  inv s -> inv (state_of (_emitChange f t s)).
Proof.
  unfold _emitChange. destruct (opt_onChange (opts s)); auto.
Qed.

Lemma inv_show (s : slider) i : inv s -> inv (state_of (show i s)).
Proof.
  intros Hinv. unfold show.
  destruct (_isAnimating s) eqn:Ha; [exact Hinv|]. simpl.
  destruct (Z.eqb_spec i (index s)) as [->|Hne]; [exact Hinv|].
  destruct (slide_at (slides s) (index s)) as [a|] eqn:Ea; [|exact Hinv].
  destruct (slide_at (slides s) i) as [b|] eqn:Eb; [|exact Hinv].
  assert (Hvi : valid s i)
    by (apply slide_at_Some; rewrite Eb; eauto).
  destruct Hinv as [Hv Ht].
  destruct (task s) as [[]|] eqn:Etask;
    try (destruct Ht as [Ht _]; congruence).
  destruct Ht as [_ Hm].
  assert (Hact : inv (state_of (_activateIndex i s))).
  { rewrite activateIndex_returns by assumption.
    unfold inv, valid, slides_length in *. simpl. rewrite Etask.
    rewrite !length_mark. conjs; try assumption; try lia. markers. }
  assert (Hfade : inv (state_of (_fadeImages (index s) i
                                   (with_isAnimating true s)))).
  { apply inv_fadeImages; auto. }
  destruct (_getDirectImg a), (_getDirectImg b); try exact Hact.
  cbn [opts with_isAnimating THREE].
  destruct (opt_animation (opts s)); try exact Hfade.
  all: destruct (_webglTransition (THREE s)); try exact Hfade.
  all: unfold inv, valid, slides_length in *; simpl; conjs; auto; lia.
Qed.

Lemma inv_fade_timeout (s : slider) f t :
  inv s -> task s = Some (FadeTimer f t) ->
  inv (state_of (fade_timeout f t s)).
Proof.
  intros [Hv Ht] Etask. rewrite Etask in Ht.
  destruct Ht as (Ha & -> & Hvt & Hm).
  unfold fade_timeout, and_then, update.
  rewrite finish_returns
    by (unfold valid, slides_length in *; simpl; rewrite !length_mark; lia).
  apply inv_emitChange.
  unfold inv, valid, slides_length in *. simpl.
  rewrite !length_mark. conjs; try reflexivity; try lia. markers.
Qed.

Lemma inv_handle (e : event) (s : slider) :
  inv s -> inv (state_of (handle e s)).
Proof.
  intros Hinv. destruct e; simpl.
  - (* Next *)
    unfold next. destruct (_ && _); [exact Hinv | now apply inv_show].
  - (* Prev *)
    unfold prev. destruct (_ && _); [exact Hinv | now apply inv_show].
  - now apply inv_show.
  - (* Timeout *)
    destruct (task s) as [[f t|f t lib g|f t g start]|] eqn:Etask;
      try exact Hinv.
    now apply inv_fade_timeout.
  - (* Textures *)
    destruct (task s) as [[f t|f t lib g|f t g start]|] eqn:Etask;
      try exact Hinv.
    pose proof Hinv as [Hv Ht]. rewrite Etask in Ht.
    destruct Ht as (Ha & Hf & Hvt & Hm).
    destruct (_webglTransition_loaded lib ok0 ok1 g).
    + apply inv_fadeImages; auto.
    + unfold inv, valid, slides_length in *. simpl.
      rewrite !length_mark. conjs; try assumption; try lia.
      subst f. markers.
  - (* Frame *)
    destruct (task s) as [[f t|f t lib g|f t g start]|] eqn:Etask;
      try exact Hinv.
    pose proof Hinv as [Hv Ht]. rewrite Etask in Ht.
    destruct Ht as (Ha & Hf & Hvt & Hm).
    destruct (step _ _ _ _ _).
    + unfold inv, valid, slides_length in *. simpl. conjs; auto; lia.
    + unfold and_then, update.
      rewrite finish_returns
        by (unfold valid, slides_length in *; simpl;
            rewrite !length_mark; lia).
      apply inv_emitChange.
      unfold inv, valid, slides_length in *. simpl.
      rewrite !length_mark. conjs; try reflexivity; try lia.
      subst f. markers.
    + apply inv_fadeImages; auto.
Qed.

Lemma inv_run (es : list event) (s : slider) : inv s -> inv (run es s).
Proof.
  revert s. induction es as [|e es IH]; intros s Hinv; [exact Hinv|].
  apply IH, inv_handle, Hinv.
Qed.

(** Counting form of the steady state: one slide is marked. *)
Lemma filter_active_none (l : list slide) :
  (forall n el, l !! n = Some el -> active el = false) ->
  List.filter active l = [].
Proof.
  induction l as [|a l IH]; intros H; [reflexivity|]. simpl.
  rewrite (H 0%nat a eq_refl). apply IH. intros n el Hn.
  apply (H (S n) el Hn).
Qed.

Lemma filter_active_one (l : list slide) (k : nat) :
  (k < length l)%nat ->
  (forall n el, l !! n = Some el -> active el = true <-> n = k) ->
  length (List.filter active l) = 1%nat.
Proof.
  revert k. induction l as [|a l IH]; intros k Hk H; [simpl in Hk; lia|].
  simpl. destruct k as [|k].
  - rewrite (proj2 (H 0%nat a eq_refl) eq_refl). simpl.
    rewrite filter_active_none; [reflexivity|].
    intros n el Hn. destruct (active el) eqn:E; [|reflexivity].
    apply (H (S n) el Hn) in E. discriminate.
  - destruct (active a) eqn:E.
    + apply (H 0%nat a eq_refl) in E. discriminate.
    + apply (IH k); [simpl in Hk; lia|].
      intros n el Hn. rewrite (H (S n) el Hn). lia.
Qed.

Lemma markers_single_count (l : list slide) (k : Z) :
  0 <= k < Z.of_nat (length l) ->
  markers_are l (fun i => i = k) ->
  length (List.filter active l) = 1%nat.
Proof.
  intros Hk Hm. apply (filter_active_one l (Z.to_nat k)); [lia|].
  intros n el Hn.
  assert (Hr : 0 <= Z.of_nat n < Z.of_nat (length l))
    by (apply lookup_lt_Some in Hn; lia).
  specialize (Hm (Z.of_nat n) Hr). unfold marked, slide_at in Hm.
  destruct (Z.leb_spec 0 (Z.of_nat n)); [|lia].
  rewrite Nat2Z.id, Hn in Hm. rewrite Hm. lia.
Qed.

(** C5 (as amended): after any sequence of events on a constructed slider,
    in the steady state the marked slides are exactly the slide at the
    current index, one slide in all; while a transition from [f] to [t] is
    in flight, [f] is the current index and is marked, [t] is marked as well
    once the fade has started or the textures of the GPU session are in
    (only [f] as long as they are still loading), and no other slide is ever
    marked. *)
Theorem active_marker_invariant divs o three s0 (es : list event) :
  constructor divs o three = Some s0 ->
  let s := run es s0 in
  valid s (index s) /\
  (_isAnimating s = false ->
     task s = None /\
     markers_are (slides s) (fun i => i = index s) /\
     length (List.filter active (slides s)) = 1%nat) /\
  (_isAnimating s = true ->
     exists p f t,
       task s = Some p /\ transition_of p = (f, t) /\
       f = index s /\ valid s t /\
       markers_are (slides s)
         (fun i => i = f \/ (loading p = false /\ i = t))).
Proof.
  intros Hc s.
  assert (Hinv : inv s) by (apply inv_run, (inv_constructor _ _ _ _ Hc)).
  destruct Hinv as [Hv Ht]. split; [exact Hv|].
  destruct (task s) as [p|] eqn:Etask.
  - split.
    + intros Ha. destruct p; destruct Ht as [Ht _]; congruence.
    + intros _. exists p.
      destruct p as [f t|f t lib g|f t g start];
        destruct Ht as (Ha & Hf & Hvt & Hm);
        exists f, t; conjs; try reflexivity; try assumption;
        intros i Hi; rewrite (Hm i Hi); simpl; intuition congruence.
  - destruct Ht as [Ha Hm]. split; [|congruence].
    intros _. conjs; [reflexivity | exact Hm |].
    apply (markers_single_count _ (index s)); assumption.
Qed.

Lemma active_marker_invariant_witness :
  let s := run [Show 1; Textures true true 0]
               (initial two_photos defaultOptions (Some three_full)) in
  valid s (index s) /\
  (_isAnimating s = false ->
     task s = None /\
     markers_are (slides s) (fun i => i = index s) /\
     length (List.filter active (slides s)) = 1%nat) /\
  (_isAnimating s = true ->
     exists p f t,
       task s = Some p /\ transition_of p = (f, t) /\
       f = index s /\ valid s t /\
       markers_are (slides s)
         (fun i => i = f \/ (loading p = false /\ i = t))).
Proof.
  apply (active_marker_invariant two_photos defaultOptions (Some three_full)).
  reflexivity.
Defined.

(** C5 as first stated does not hold: after [show(1)] has set the animating
    flag and while the textures are loading, the target slide is not yet
    marked. *)
Lemma target_unmarked_while_loading :
  let s := run [Show 1] (initial two_photos defaultOptions (Some three_full)) in
  _isAnimating s = true /\
  (exists lib g, task s = Some (TextureLoad 0 1 lib g)) /\
  marked (slides s) 0 = true /\ marked (slides s) 1 = false.
Proof. intros s. conjs; try reflexivity. eexists _, _. reflexivity. Qed.

(** ** The frame loop *)

Section Frames.
Local Open Scope Q_scope.

Variables dur start : Q.
Hypothesis dur_pos : 0 < dur.

Lemma progress_num now :
  progress dur start now = Num (Qmin 1 ((now - start) / dur)).
Proof.
  unfold progress, divide.
  destruct (Qeq_bool dur 0) eqn:E; [|reflexivity].
  apply Qeq_bool_iff in E. rewrite E in dur_pos.
  now apply Qlt_irrefl in dur_pos.
Qed.

Lemma elapsed_ratio now : 1 <= (now - start) / dur <-> start + dur <= now.
Proof.
  split; intros H.
  - destruct (Qlt_le_dec now (start + dur)) as [Hlt|Hle]; [|exact Hle].
    exfalso. apply (Qlt_not_le ((now - start) / dur) 1); [|exact H].
    apply Qlt_shift_div_r; [exact dur_pos | clear H].
    lra.
  - apply Qle_shift_div_l; [exact dur_pos | lra].
Qed.

Lemma Qmin_1_of_ge x : 1 <= x -> Qmin 1 x = 1.
Proof.
  intros H. unfold Qmin, GenericMinMax.gmin.
  destruct (1 ?= x) eqn:E; try reflexivity.
  apply Qgt_alt in E. exfalso. apply (Qlt_not_le x 1); assumption.
Qed.

Lemma lt_1_progress now :
  lt_1 (progress dur start now) = false <-> start + dur <= now.
Proof.
  rewrite progress_num. simpl. rewrite negb_false_iff, Qle_bool_iff.
  rewrite <- elapsed_ratio. split; intros H.
  - apply Q.min_glb_r in H. exact H.
  - apply Q.min_glb; [apply Qle_refl | exact H].
Qed.

Lemma progress_range now :
  start <= now ->
  exists q, progress dur start now = Num q /\ 0 <= q <= 1.
Proof.
  intros H. rewrite progress_num. eexists. split; [reflexivity|]. split.
  - apply Q.min_glb; [lra|].
    apply Qle_shift_div_l; [exact dur_pos | lra].
  - apply Q.le_min_l.
Qed.

Lemma progress_monotone now1 now2 q1 q2 :
  now1 <= now2 ->
  progress dur start now1 = Num q1 ->
  progress dur start now2 = Num q2 ->
  q1 <= q2.
Proof.
  rewrite !progress_num. intros H [= <-] [= <-].
  apply Q.min_le_compat_l. unfold Qdiv.
  apply Qmult_le_compat_r; [lra|].
  apply Qinv_le_0_compat. now apply Qlt_le_weak.
Qed.

Lemma progress_final now :
  start + dur <= now -> progress dur start now = Num 1.
Proof.
  intros H. rewrite progress_num. f_equal.
  apply Qmin_1_of_ge. now apply elapsed_ratio.
Qed.

(** Every rendered frame carries the progress computed from its stamp. *)
Lemma frame_loop_values g nows now p :
  (now, p) ∈ (frame_loop dur start g nows).1 ->
  now ∈ nows /\ p = progress dur start now.
Proof.
  revert g. induction nows as [|n rest IH]; intros g; simpl.
  - intros H. inversion H.
  - unfold step. destruct (lt_1 (progress dur start n)).
    + destruct (frame_loop dur start _ rest) as [frames fin] eqn:E.
      simpl. intros H. apply elem_of_cons in H as [[= -> ->]|H].
      * split; [left | reflexivity].
      * specialize (IH _ ltac:(rewrite E; exact H)) as [H1 H2].
        split; [now right | exact H2].
    + simpl. intros H. apply list_elem_of_singleton in H as [= -> ->].
      split; [left | reflexivity].
Qed.


Lemma frame_loop_last g nows :
  (frame_loop dur start g nows).2 = true ->
  exists now,
    last (frame_loop dur start g nows).1 = Some (now, Num 1) /\
    start + dur <= now.
Proof.
  revert g. induction nows as [|n rest IH]; intros g; simpl.
  - discriminate.
  - unfold step. destruct (lt_1 (progress dur start n)) eqn:E.
    + destruct (frame_loop dur start _ rest) as [frames fin] eqn:El.
      simpl. intros ->.
      specialize (IH _ ltac:(rewrite El; reflexivity)) as (now & Hl & Hn).
      rewrite El in Hl. simpl in Hl. exists now. split; [|exact Hn].
      destruct frames; [discriminate | exact Hl].
    + simpl. intros _. apply lt_1_progress in E.
      exists n. split; [|exact E]. now rewrite progress_final.
Qed.

End Frames.

(** ** The frame loop in binary64 *)

Section Binary64.
Local Open Scope Q_scope.

Lemma pow2_pos z : 0 < pow2 z.
Proof. apply Qpower_0_lt. reflexivity. Qed.

Lemma pow2_add a b : pow2 (a + b) == pow2 a * pow2 b.
Proof. apply Qpower_plus. discriminate. Qed.

Lemma pow2_le a b : (a <= b)%Z -> pow2 a <= pow2 b.
Proof. intros H. apply Qpower_le_compat_l; [exact H | discriminate]. Qed.

Lemma pow2_lt_inv a b : pow2 a < pow2 b -> (a < b)%Z.
Proof. intros H. apply (Qpower_lt_compat_l_inv 2); [exact H | reflexivity]. Qed.

Lemma pow2_Z z : (0 <= z)%Z -> pow2 z == inject_Z (2 ^ z).
Proof. intros H. unfold pow2. now rewrite Zpower_Qpower. Qed.

Lemma pow2_split a b : pow2 a == pow2 (a - b) * pow2 b.
Proof. rewrite <- pow2_add. now replace (a - b + b)%Z with a by lia. Qed.

Lemma div_pow2_le x y c : x <= y * pow2 c -> x / pow2 c <= y.
Proof. intros H. apply Qle_shift_div_r; [apply pow2_pos | exact H]. Qed.

Lemma le_div_pow2 x y c : x * pow2 c <= y -> x <= y / pow2 c.
Proof. intros H. apply Qle_shift_div_l; [apply pow2_pos | exact H]. Qed.

Lemma log2_bracket (n : Z) :
  (0 < n)%Z ->
  pow2 (Z.log2 n) <= inject_Z n /\ inject_Z n < pow2 (Z.log2 n + 1).
Proof.
  intros Hn. destruct (Z.log2_spec n Hn) as [H1 H2].
  pose proof (Z.log2_nonneg n) as H0.
  rewrite !pow2_Z by lia. split.
  - now rewrite <- Zle_Qle.
  - rewrite <- Zlt_Qlt. now rewrite <- Z.add_1_r in H2.
Qed.

Lemma ilog2_bracket q :
  0 < q -> pow2 (ilog2 q) <= q /\ q < pow2 (ilog2 q + 1).
Proof.
  intros Hq. destruct q as [a b].
  assert (Ha : (0 < a)%Z) by (unfold Qlt in Hq; simpl in Hq; lia).
  destruct (log2_bracket a Ha) as [A1 A2].
  destruct (log2_bracket (Zpos b) eq_refl) as [B1 B2].
  set (la := Z.log2 a) in *. set (lb := Z.log2 (Zpos b)) in *.
  assert (HB : 0 < inject_Z (Zpos b)) by reflexivity.
  assert (Hq' : (a # b) * inject_Z (Zpos b) == inject_Z a).
  { rewrite Qmake_Qdiv. field. discriminate. }
  assert (Hup : a # b < pow2 (la - lb + 1)).
  { apply (Qmult_lt_r _ _ (inject_Z (Zpos b)) HB). rewrite Hq'.
    apply (Qlt_le_trans _ (pow2 (la + 1))); [exact A2|].
    rewrite (pow2_split (la + 1) lb).
    replace (la + 1 - lb)%Z with (la - lb + 1)%Z by lia.
    apply Qmult_le_l; [apply pow2_pos | exact B1]. }
  assert (Hlo : pow2 (la - lb - 1) < a # b).
  { apply (Qmult_lt_r _ _ (inject_Z (Zpos b)) HB). rewrite Hq'.
    apply (Qlt_le_trans _ (pow2 la)); [|exact A1].
    rewrite (pow2_split la (lb + 1)).
    replace (la - (lb + 1))%Z with (la - lb - 1)%Z by lia.
    apply Qmult_lt_l; [apply pow2_pos | exact B2]. }
  unfold ilog2. cbn [Qnum Qden]. fold la lb.
  destruct (Qle_bool (pow2 (la - lb)) (a # b)) eqn:E.
  - apply Qle_bool_iff in E. split; assumption.
  - split; [now apply Qlt_le_weak|].
    replace (la - lb - 1 + 1)%Z with (la - lb)%Z by lia.
    apply Qnot_le_lt. intros H. apply Qle_bool_iff in H. congruence.
Qed.

Lemma ilog2_mono q1 q2 : 0 < q1 -> q1 <= q2 -> (ilog2 q1 <= ilog2 q2)%Z.
Proof.
  intros H1 H12.
  destruct (ilog2_bracket q1 H1) as [L1 _].
  destruct (ilog2_bracket q2 (Qlt_le_trans _ _ _ H1 H12)) as [_ U2].
  assert (H : pow2 (ilog2 q1) < pow2 (ilog2 q2 + 1)).
  { eapply Qle_lt_trans; [exact L1|]. eapply Qle_lt_trans; eassumption. }
  apply pow2_lt_inv in H. lia.
Qed.

Lemma rne_cases q :
  let f := Qfloor q in
  (rne q = f /\ q - inject_Z f <= 1 # 2) \/
  (rne q = (f + 1)%Z /\ 1 # 2 <= q - inject_Z f).
Proof.
  intros f. unfold rne. fold f.
  destruct (Qcompare_spec (q - inject_Z f) (1 # 2)) as [E|E|E].
  - destruct (Z.even f); [left | right]; split; try reflexivity;
      rewrite E; apply Qle_refl.
  - left. split; [reflexivity | now apply Qlt_le_weak].
  - right. split; [reflexivity | now apply Qlt_le_weak].
Qed.

Lemma rne_mono x y : x <= y -> (rne x <= rne y)%Z.
Proof.
  intros Hxy. pose proof (Qfloor_resp_le x y Hxy) as Hf.
  destruct (Z.eq_dec (Qfloor x) (Qfloor y)) as [E|E].
  - unfold rne. rewrite <- E.
    destruct (Qcompare_spec (x - inject_Z (Qfloor x)) (1 # 2)) as [A|A|A];
    destruct (Qcompare_spec (y - inject_Z (Qfloor x)) (1 # 2)) as [B|B|B];
      try destruct (Z.even (Qfloor x)); try lia; exfalso; lra.
  - destruct (rne_cases x) as [[-> _]|[-> _]];
    destruct (rne_cases y) as [[-> _]|[-> _]]; lia.
Qed.

Lemma rne_Z (n : Z) : rne (inject_Z n) = n.
Proof.
  unfold rne. rewrite Qfloor_Z.
  destruct (Qcompare_spec (inject_Z n - inject_Z n) (1 # 2)) as [A|A|A];
    try reflexivity; exfalso; lra.
Qed.

Lemma rne_nonneg x : 0 <= x -> (0 <= rne x)%Z.
Proof. intros H. rewrite <- (rne_Z 0). now apply rne_mono. Qed.

Lemma last_bit_mono q1 q2 :
  0 < q1 -> q1 <= q2 -> (last_bit q1 <= last_bit q2)%Z.
Proof.
  intros H1 H2. unfold last_bit. pose proof (ilog2_mono q1 q2 H1 H2). lia.
Qed.

Lemma pow2_grid e c : (c <= e)%Z -> pow2 e == inject_Z (2 ^ (e - c)) * pow2 c.
Proof.
  intros H. rewrite <- pow2_Z by lia. apply pow2_split.
Qed.

(** Rounding never crosses a multiple of the last bit's weight. *)
Lemma round_pos_grid_le q k :
  inject_Z k * pow2 (last_bit q) <= q ->
  inject_Z k * pow2 (last_bit q) <= round_pos q.
Proof.
  intros H. unfold round_pos.
  apply Qmult_le_compat_r; [|apply Qlt_le_weak, pow2_pos].
  rewrite <- Zle_Qle. rewrite <- (rne_Z k) at 1.
  apply rne_mono. now apply le_div_pow2.
Qed.

Lemma round_pos_grid_ge q k :
  q <= inject_Z k * pow2 (last_bit q) ->
  round_pos q <= inject_Z k * pow2 (last_bit q).
Proof.
  intros H. unfold round_pos.
  apply Qmult_le_compat_r; [|apply Qlt_le_weak, pow2_pos].
  rewrite <- Zle_Qle. rewrite <- (rne_Z k) at 1.
  apply rne_mono. now apply div_pow2_le.
Qed.

Lemma round_pos_nonneg q : 0 <= q -> 0 <= round_pos q.
Proof.
  intros H. rewrite <- (Qmult_0_l (pow2 (last_bit q))).
  apply (round_pos_grid_le q 0). now rewrite Qmult_0_l.
Qed.

Lemma round_pos_mono q1 q2 :
  0 < q1 -> q1 <= q2 -> round_pos q1 <= round_pos q2.
Proof.
  intros H1 H12.
  assert (H2 : 0 < q2) by (eapply Qlt_le_trans; eassumption).
  pose proof (last_bit_mono q1 q2 H1 H12) as Hc.
  destruct (Z.eq_dec (last_bit q1) (last_bit q2)) as [E|E].
  - unfold round_pos. rewrite E.
    apply Qmult_le_compat_r; [|apply Qlt_le_weak, pow2_pos].
    rewrite <- Zle_Qle. apply rne_mono.
    apply Qmult_le_compat_r; [exact H12|].
    apply Qinv_le_0_compat, Qlt_le_weak, pow2_pos.
  - destruct (ilog2_bracket q1 H1) as [_ U1].
    destruct (ilog2_bracket q2 H2) as [L2 _].
    assert (He : (ilog2 q1 + 1 <= ilog2 q2)%Z) by (unfold last_bit in *; lia).
    assert (Hc1 : (last_bit q1 <= ilog2 q2)%Z) by (unfold last_bit in *; lia).
    assert (Hc2 : (last_bit q2 <= ilog2 q2)%Z) by (unfold last_bit in *; lia).
    apply (Qle_trans _ (pow2 (ilog2 q2))).
    + rewrite (pow2_grid _ _ Hc1). apply round_pos_grid_ge.
      rewrite <- (pow2_grid _ _ Hc1).
      apply Qlt_le_weak. eapply Qlt_le_trans; [exact U1|].
      now apply pow2_le.
    + rewrite (pow2_grid _ _ Hc2). apply round_pos_grid_le.
      now rewrite <- (pow2_grid _ _ Hc2).
Qed.

Lemma round64_not_nan q : round64 q <> NaN.
Proof.
  unfold round64. destruct (q ?= 0); [discriminate | |];
    match goal with |- context [if ?b then _ else _] => destruct b end;
    discriminate.
Qed.

Lemma number_le_refl x : x <> NaN -> number_le x x.
Proof. destruct x; simpl; try easy. intros _. apply Qle_refl. Qed.

Lemma number_le_trans x y z : number_le x y -> number_le y z -> number_le x z.
Proof.
  destruct x, y, z; simpl; try easy. apply Qle_trans.
Qed.

Lemma round64_pos q :
  0 < q ->
  (round64 q = Num (round_pos q) /\ round_pos q < pow2 1024) \/
  (round64 q = Infinity /\ pow2 1024 <= round_pos q).
Proof.
  intros H. assert (E0 : (q ?= 0) = Gt) by now apply Qgt_alt.
  unfold round64. rewrite E0.
  destruct (Qle_bool (pow2 1024) (round_pos q)) eqn:E.
  - right. split; [reflexivity | now apply Qle_bool_iff].
  - left. split; [reflexivity|]. apply Qnot_le_lt. intros C.
    apply Qle_bool_iff in C. congruence.
Qed.

Lemma round64_neg q :
  q < 0 ->
  (round64 q = Num (- round_pos (- q)) /\ round_pos (- q) < pow2 1024) \/
  (round64 q = NegInfinity /\ pow2 1024 <= round_pos (- q)).
Proof.
  intros H. assert (E0 : (q ?= 0) = Lt) by now apply Qlt_alt.
  unfold round64. rewrite E0.
  destruct (Qle_bool (pow2 1024) (round_pos (- q))) eqn:E.
  - right. split; [reflexivity | now apply Qle_bool_iff].
  - left. split; [reflexivity|]. apply Qnot_le_lt. intros C.
    apply Qle_bool_iff in C. congruence.
Qed.

Lemma round64_zero q : q == 0 -> round64 q = Num 0.
Proof.
  intros H. assert (E : (q ?= 0) = Eq) by now apply Qeq_alt.
  unfold round64. now rewrite E.
Qed.

(** Rounding to the nearest double is monotone. *)
Lemma round64_mono q1 q2 : q1 <= q2 -> number_le (round64 q1) (round64 q2).
Proof.
  intros H.
  destruct (Q_dec q1 0) as [[N1|P1]|Z1]; destruct (Q_dec q2 0) as [[N2|P2]|Z2];
    try (exfalso; lra).
  - assert (Hm : round_pos (- q2) <= round_pos (- q1))
      by (apply round_pos_mono; lra).
    destruct (round64_neg q1 N1) as [[-> A]|[-> A]];
    destruct (round64_neg q2 N2) as [[-> B]|[-> B]]; simpl; trivial; lra.
  - pose proof (round_pos_nonneg (- q1) ltac:(lra)).
    pose proof (round_pos_nonneg q2 ltac:(lra)).
    destruct (round64_neg q1 N1) as [[-> A]|[-> A]];
    destruct (round64_pos q2 P2) as [[-> B]|[-> B]]; simpl; trivial; lra.
  - pose proof (round_pos_nonneg (- q1) ltac:(lra)).
    rewrite (round64_zero q2 Z2).
    destruct (round64_neg q1 N1) as [[-> A]|[-> A]]; simpl; trivial; lra.
  - assert (Hm : round_pos q1 <= round_pos q2)
      by (apply round_pos_mono; lra).
    destruct (round64_pos q1 P1) as [[-> A]|[-> A]];
    destruct (round64_pos q2 P2) as [[-> B]|[-> B]]; simpl; trivial; lra.
  - pose proof (round_pos_nonneg q2 ltac:(lra)).
    rewrite (round64_zero q1 Z1).
    destruct (round64_pos q2 P2) as [[-> B]|[-> B]]; simpl; trivial; lra.
  - rewrite (round64_zero q1 Z1), (round64_zero q2 Z2). simpl. lra.
Qed.

Lemma ilog2_unique x e : pow2 e <= x -> x < pow2 (e + 1) -> ilog2 x = e.
Proof.
  intros L U.
  assert (Hx : 0 < x) by (eapply Qlt_le_trans; [apply (pow2_pos e) | exact L]).
  destruct (ilog2_bracket x Hx) as [L' U'].
  assert (A : pow2 e < pow2 (ilog2 x + 1))
    by (eapply Qle_lt_trans; eassumption).
  assert (B : pow2 (ilog2 x) < pow2 (e + 1))
    by (eapply Qle_lt_trans; eassumption).
  apply pow2_lt_inv in A. apply pow2_lt_inv in B. lia.
Qed.

Lemma round_pos_fine a : 0 < a -> 0 < round_pos a -> fine (round_pos a).
Proof.
  intros Ha Hr. destruct (ilog2_bracket a Ha) as [_ U].
  destruct (ilog2_bracket _ Hr) as [Lr _].
  set (top := Z.max (ilog2 a + 1) (last_bit a)).
  assert (Hc : (last_bit a <= top)%Z) by lia.
  assert (Ht : round_pos a <= pow2 top).
  { rewrite (pow2_grid _ _ Hc). apply round_pos_grid_ge.
    rewrite <- (pow2_grid _ _ Hc). apply Qlt_le_weak.
    eapply Qlt_le_trans; [exact U|]. apply pow2_le. lia. }
  destruct (Qlt_le_dec (round_pos a) (pow2 top)) as [Ht'|Ht'].
  - assert (He : (ilog2 (round_pos a) < top)%Z).
    { apply pow2_lt_inv. eapply Qle_lt_trans; eassumption. }
    assert (Hf : (ilog2 (round_pos a) - 52 <= last_bit a)%Z)
      by (unfold last_bit in *; lia).
    exists (rne (a / pow2 (last_bit a)) *
            2 ^ (last_bit a - (ilog2 (round_pos a) - 52)))%Z.
    rewrite inject_Z_mult, <- Qmult_assoc, <- (pow2_grid _ _ Hf).
    reflexivity.
  - assert (E : round_pos a == pow2 top) by now apply Qle_antisym.
    assert (I : ilog2 (round_pos a) = top).
    { apply ilog2_unique; rewrite E; [apply Qle_refl|].
      apply Qpower_lt_compat_l; [lia | reflexivity]. }
    exists (2 ^ 52)%Z. rewrite I, E.
    rewrite (pow2_grid top (top - 52)) by lia.
    now replace (top - (top - 52))%Z with 52%Z by lia.
Qed.

Lemma ilog2_Qeq x y : 0 < x -> x == y -> ilog2 x = ilog2 y.
Proof.
  intros Hx E. destruct (ilog2_bracket x Hx) as [L U].
  symmetry. apply ilog2_unique; now rewrite <- E.
Qed.

Lemma fine_Qeq x y : 0 < x -> x == y -> fine x -> fine y.
Proof.
  intros Hx E [m Hm]. exists m.
  now rewrite <- (ilog2_Qeq x y Hx E), <- E.
Qed.

Lemma is_double_fine d : 0 < d -> is_double d = true -> fine d.
Proof.
  intros Hd. unfold is_double.
  destruct (round64_pos d Hd) as [[-> _]|[-> _]]; [|discriminate].
  intros E. apply Qeq_bool_iff in E.
  assert (P : 0 < round_pos d) by now rewrite E.
  exact (fine_Qeq _ _ P E (round_pos_fine d Hd P)).
Qed.

Lemma pow2_m53 : 0 < pow2 (-53) /\ pow2 (-53) < 1.
Proof. split; reflexivity. Qed.

(** Two distinct doubles differ by at least one part in [2^53] of the
    larger. *)
Lemma double_gap q d :
  0 < q -> fine q -> fine d -> q < d -> q <= d * (1 - pow2 (-53)).
Proof.
  intros Hq [m Hm] [n Hn] Hlt.
  assert (Hd : 0 < d) by (eapply Qlt_trans; eassumption).
  destruct (ilog2_bracket q Hq) as [Lq Uq].
  destruct (ilog2_bracket d Hd) as [Ld Ud].
  pose proof (ilog2_mono q d Hq (Qlt_le_weak _ _ Hlt)) as Hle.
  destruct pow2_m53 as [u0 u1]. set (u := pow2 (-53)) in *.
  destruct (Z.eq_dec (ilog2 q) (ilog2 d)) as [E|E].
  - rewrite E in Hm. set (P := pow2 (ilog2 d - 52)) in *.
    assert (HP : 0 < P) by apply pow2_pos.
    assert (Hmn : (m + 1 <= n)%Z).
    { assert (H : inject_Z m < inject_Z n).
      { apply (Qmult_lt_r _ _ P HP). now rewrite <- Hm, <- Hn. }
      rewrite <- Zlt_Qlt in H. lia. }
    assert (Hstep : q + P <= d).
    { rewrite Hm, Hn. rewrite Zle_Qle, inject_Z_plus in Hmn.
      apply (Qmult_le_r _ _ P HP) in Hmn.
      eapply Qle_trans; [|exact Hmn]. ring_simplify. apply Qle_refl. }
    assert (HdP : d * u <= P).
    { unfold P. rewrite (pow2_split (ilog2 d - 52) (-53)).
      replace (ilog2 d - 52 - -53)%Z with (ilog2 d + 1)%Z by lia.
      fold u. apply Qmult_le_compat_r; lra. }
    lra.
  - set (P := pow2 (ilog2 q - 52)) in *.
    assert (HP : 0 < P) by apply pow2_pos.
    assert (G : pow2 (ilog2 q + 1) == inject_Z (2 ^ 53) * P).
    { unfold P. rewrite (pow2_grid (ilog2 q + 1) (ilog2 q - 52)) by lia.
      now replace (ilog2 q + 1 - (ilog2 q - 52))%Z with 53%Z by lia. }
    assert (Hm53 : (m + 1 <= 2 ^ 53)%Z).
    { assert (H : inject_Z m < inject_Z (2 ^ 53)).
      { apply (Qmult_lt_r _ _ P HP). lra. }
      rewrite <- Zlt_Qlt in H. lia. }
    assert (Hstep : inject_Z m * P + P <= pow2 (ilog2 q + 1)).
    { rewrite G. rewrite Zle_Qle, inject_Z_plus in Hm53.
      apply (Qmult_le_r _ _ P HP) in Hm53.
      eapply Qle_trans; [|exact Hm53]. ring_simplify. apply Qle_refl. }
    assert (HPu : P == pow2 (ilog2 q + 1) * u).
    { unfold P, u. rewrite <- pow2_add.
      now replace (ilog2 q + 1 + -53)%Z with (ilog2 q - 52)%Z by lia. }
    assert (Hpd : pow2 (ilog2 q + 1) <= d).
    { eapply Qle_trans; [|exact Ld]. apply pow2_le. lia. }
    set (T := pow2 (ilog2 q + 1)) in *.
    apply (Qle_trans _ (T * (1 - u))); [lra|].
    apply Qmult_le_compat_r; lra.
Qed.

Lemma divide64_pos q d : 0 < d -> divide64 (Num q) d = round64 (q / d).
Proof.
  intros Hd. unfold divide64.
  destruct (Qeq_bool d 0) eqn:E; [|reflexivity].
  apply Qeq_bool_iff in E. exfalso. lra.
Qed.

Lemma divide64_infinite d :
  0 < d ->
  divide64 Infinity d = Infinity /\ divide64 NegInfinity d = NegInfinity.
Proof.
  intros Hd. unfold divide64.
  assert (E : Qle_bool 0 d = true) by (apply Qle_bool_iff; lra).
  rewrite E, orb_true_r. now split.
Qed.

Lemma divide64_mono x y d :
  0 < d -> number_le x y -> number_le (divide64 x d) (divide64 y d).
Proof.
  intros Hd. destruct (divide64_infinite d Hd) as [I N].
  destruct x as [q1| | |], y as [q2| | |]; try easy;
    rewrite ?I, ?N, ?divide64_pos by exact Hd; cbn [number_le];
    trivial; intros H.
  - apply round64_mono. apply Qmult_le_compat_r; [exact H|].
    apply Qinv_le_0_compat. lra.
  - pose proof (round64_not_nan (q1 / d)).
    now destruct (round64 (q1 / d)).
  - pose proof (round64_not_nan (q2 / d)).
    now destruct (round64 (q2 / d)).
Qed.

Lemma Math_min_1_mono x y :
  number_le x y -> number_le (Math_min_1 x) (Math_min_1 y).
Proof.
  destruct x, y; simpl; try easy; intros H.
  - now apply Q.min_le_compat_l.
  - apply Q.le_min_l.
Qed.

Lemma Math_min_1_le_1 x : x <> NaN -> number_le (Math_min_1 x) (Num 1).
Proof.
  destruct x; simpl; try easy. intros _. apply Q.le_min_l.
Qed.

Lemma progress64_not_nan dur start now :
  0 < dur -> divide64 (minus64 now start) dur <> NaN.
Proof.
  intros Hd. unfold minus64.
  pose proof (round64_not_nan (now - start)) as H.
  destruct (divide64_infinite dur Hd) as [I N].
  destruct (round64 (now - start)); try easy.
  - rewrite divide64_pos by exact Hd. apply round64_not_nan.
  - now rewrite I.
  - now rewrite N.
Qed.

Lemma progress64_monotone dur start now1 now2 :
  0 < dur -> now1 <= now2 ->
  number_le (progress64 dur start now1) (progress64 dur start now2).
Proof.
  intros Hd H. unfold progress64, minus64.
  apply Math_min_1_mono, divide64_mono; [exact Hd|].
  apply round64_mono. lra.
Qed.

Lemma progress64_at_start dur start : 0 < dur ->
  progress64 dur start start = Num 0.
Proof.
  intros Hd. unfold progress64, minus64.
  rewrite (round64_zero (start - start)) by ring.
  rewrite divide64_pos by exact Hd.
  rewrite (round64_zero (0 / dur)); [reflexivity|].
  unfold Qdiv. apply Qmult_0_l.
Qed.

Lemma progress64_range dur start now :
  0 < dur ->
  number_le (progress64 dur start now) (Num 1) /\
  (start <= now -> number_le (Num 0) (progress64 dur start now)).
Proof.
  intros Hd. split.
  - apply Math_min_1_le_1. now apply progress64_not_nan.
  - intros H. rewrite <- (progress64_at_start dur start Hd).
    now apply progress64_monotone.
Qed.

Lemma lt_1_final x : x <> NaN -> lt_1 (Math_min_1 x) = false ->
  Math_min_1 x = Num 1.
Proof.
  destruct x as [q| | |]; simpl; try easy. intros _ H.
  apply negb_false_iff, Qle_bool_iff in H. f_equal.
  apply Qmin_1_of_ge. now apply Q.min_glb_r in H.
Qed.

Lemma lt_1_below x b :
  number_le x (Num b) -> b < 1 -> lt_1 (Math_min_1 x) = true.
Proof.
  destruct x as [q| | |]; simpl; try easy. intros H Hb.
  apply negb_true_iff. destruct (Qle_bool 1 (Qmin 1 q)) eqn:E; [|reflexivity].
  apply Qle_bool_iff, Q.min_glb_r in E. exfalso. lra.
Qed.

Lemma lt_1_above x b :
  number_le (Num b) x -> 1 <= b -> lt_1 (Math_min_1 x) = false.
Proof.
  destruct x as [q| | |]; simpl; try easy. intros H Hb.
  apply negb_false_iff, Qle_bool_iff. apply Q.min_glb; lra.
Qed.

Lemma round64_one : round64 1 = Num (round_pos 1) /\ round_pos 1 == 1.
Proof. split; reflexivity. Qed.

Lemma round64_below_one :
  round64 (1 - pow2 (-53)) = Num (round_pos (1 - pow2 (-53))) /\
  round_pos (1 - pow2 (-53)) < 1.
Proof. split; reflexivity. Qed.

(** The quotient of a computed elapsed time by the duration rounds to 1 or
    more exactly when the computed elapsed time is at least the duration. *)
Lemma quotient_final q d :
  0 < d -> d <= q -> lt_1 (Math_min_1 (divide64 (Num q) d)) = false.
Proof.
  intros Hd H. rewrite divide64_pos by exact Hd.
  destruct round64_one as [E1 E2].
  apply (lt_1_above _ (round_pos 1)); [|now rewrite E2].
  rewrite <- E1. apply round64_mono.
  apply Qle_shift_div_l; lra.
Qed.

Lemma quotient_below q d :
  0 < d -> fine d -> q <= 0 \/ (0 < q /\ fine q) -> q < d ->
  lt_1 (Math_min_1 (divide64 (Num q) d)) = true.
Proof.
  intros Hd Fd Hq Hlt. rewrite divide64_pos by exact Hd.
  destruct Hq as [Hq|[Hq Fq]].
  - apply (lt_1_below _ 0); [|reflexivity].
    rewrite <- (round64_zero 0) by reflexivity. apply round64_mono.
    apply Qle_shift_div_r; lra.
  - destruct round64_below_one as [E1 E2].
    apply (lt_1_below _ (round_pos (1 - pow2 (-53)))); [|exact E2].
    rewrite <- E1. apply round64_mono.
    apply Qle_shift_div_r; [exact Hd|].
    rewrite Qmult_comm. now apply double_gap.
Qed.

(** The computed elapsed time is a double. *)
Lemma round64_cases a :
  round64 a = Infinity \/ round64 a = NegInfinity \/
  exists q, round64 a = Num q /\ (q <= 0 \/ (0 < q /\ fine q)).
Proof.
  destruct (Q_dec a 0) as [[N|P]|Z].
  - destruct (round64_neg a N) as [[-> _]|[-> _]]; [|tauto].
    right. right. eexists. split; [reflexivity|]. left.
    pose proof (round_pos_nonneg (- a) ltac:(lra)). lra.
  - destruct (round64_pos a P) as [[-> _]|[-> _]]; [|tauto].
    right. right. eexists. split; [reflexivity|].
    pose proof (round_pos_nonneg a ltac:(lra)) as H0.
    destruct (Qlt_le_dec 0 (round_pos a)) as [H|H]; [right | left; exact H].
    split; [exact H | now apply round_pos_fine].
  - rewrite (round64_zero a Z). right. right. eexists.
    split; [reflexivity|]. left. apply Qle_refl.
Qed.

Lemma lt_1_progress64 dur start now :
  0 < dur -> is_double dur = true ->
  lt_1 (progress64 dur start now) = false <->
  number_le (Num dur) (minus64 now start).
Proof.
  intros Hd Dd. pose proof (is_double_fine dur Hd Dd) as Fd.
  destruct (divide64_infinite dur Hd) as [I N].
  unfold progress64, minus64.
  destruct (round64_cases (now - start)) as [->|[->|(q & -> & Hq)]].
  - rewrite I. now simpl.
  - rewrite N. now simpl.
  - simpl number_le. destruct (Qlt_le_dec q dur) as [H|H].
    + rewrite (quotient_below q dur Hd Fd Hq H). split; [discriminate|].
      intros C. exfalso. lra.
    + rewrite (quotient_final q dur Hd H). tauto.
Qed.

Lemma elapsed_is_computed dur start now :
  0 < dur -> is_double dur = true -> start + dur <= now ->
  number_le (Num dur) (minus64 now start).
Proof.
  intros Hd Dd H. unfold minus64.
  assert (M : number_le (round64 dur) (round64 (now - start)))
    by (apply round64_mono; lra).
  unfold is_double in Dd. destruct (round64 dur) as [r| | |]; try easy.
  apply Qeq_bool_iff in Dd.
  destruct (round64 (now - start)); simpl in *; try easy. lra.
Qed.

Lemma frame_loop64_values dur start nows now p :
  (now, p) ∈ (frame_loop64 dur start nows).1 ->
  now ∈ nows /\ p = progress64 dur start now.
Proof.
  induction nows as [|n rest IH]; simpl.
  - intros H. inversion H.
  - destruct (lt_1 (progress64 dur start n)).
    + destruct (frame_loop64 dur start rest) as [frames fin].
      simpl in *. intros H. apply elem_of_cons in H as [[= -> ->]|H].
      * split; [left | reflexivity].
      * destruct (IH H) as [H1 H2]. split; [now right | exact H2].
    + simpl. intros H. apply list_elem_of_singleton in H as [= -> ->].
      split; [left | reflexivity].
Qed.

Lemma frame_loop64_finalises dur start nows :
  (frame_loop64 dur start nows).2 = true <->
  Exists (fun now => lt_1 (progress64 dur start now) = false) nows.
Proof.
  induction nows as [|n rest IH]; simpl.
  - split; [discriminate | intros H; inversion H].
  - destruct (lt_1 (progress64 dur start n)) eqn:E.
    + destruct (frame_loop64 dur start rest) as [frames fin].
      simpl in *. rewrite IH. split; intros H.
      * now right.
      * inversion H as [? ? Hn|]; subst; [congruence | assumption].
    + simpl. split; [|reflexivity]. intros _. now left.
Qed.

Lemma frame_loop64_last dur start nows :
  0 < dur ->
  (frame_loop64 dur start nows).2 = true ->
  exists now,
    last (frame_loop64 dur start nows).1 = Some (now, Num 1) /\
    lt_1 (progress64 dur start now) = false /\
    forall n p, (n, p) ∈ (frame_loop64 dur start nows).1 ->
      lt_1 p = false -> n = now.
Proof.
  intros Hd. induction nows as [|n rest IH]; simpl.
  - discriminate.
  - destruct (lt_1 (progress64 dur start n)) eqn:E.
    + destruct (frame_loop64 dur start rest) as [frames fin] eqn:El.
      simpl in *. intros ->.
      destruct (IH eq_refl) as (now & Hl & Hn & Hu).
      exists now. split; [|split; [exact Hn|]].
      * destruct frames; [discriminate | exact Hl].
      * intros n' p' H Hp. apply elem_of_cons in H as [[= -> ->]|H].
        -- congruence.
        -- now apply (Hu n' p').
    + simpl. intros _. exists n. split; [|split; [exact E|]].
      * f_equal. f_equal. unfold progress64 in *.
        apply lt_1_final; [now apply progress64_not_nan | exact E].
      * intros n' p' H _. now apply list_elem_of_singleton in H as [= -> ->].
Qed.

End Binary64.

(** C4 (as amended): in one session whose duration [dur] is a positive
    double, started at [start], over the frames that render: every progress
    value handed to the shader is at most 1, and at least 0 on a frame
    stamped at or after [start]; a frame with a later stamp never gets a
    smaller value; a value is below 1 exactly while the elapsed time
    [now - start], as the subtraction of doubles yields it, is below [dur];
    the loop finalises exactly when that computed elapsed time reaches
    [dur], whatever the number of frames before it; the final frame is the
    only one whose value is not below 1 and its value is 1; and a frame
    stamped at or after [start + dur] always finalises the loop. *)
Theorem progress64_clamped_monotone_final
    (dur start : Q) (nows : list Q) :
  (0 < dur)%Q ->
  is_double dur = true ->
  let frames := (frame_loop64 dur start nows).1 in
  let finalised := (frame_loop64 dur start nows).2 in
  (forall now p, (now, p) ∈ frames ->
     number_le p (Num 1) /\
     ((start <= now)%Q -> number_le (Num 0) p) /\
     (lt_1 p = false <-> number_le (Num dur) (minus64 now start))) /\
  (forall n1 p1 n2 p2,
     (n1, p1) ∈ frames -> (n2, p2) ∈ frames ->
     (n1 <= n2)%Q -> number_le p1 p2) /\
  (finalised = true ->
     exists now, last frames = Some (now, Num 1) /\
                 number_le (Num dur) (minus64 now start) /\
                 forall n p, (n, p) ∈ frames -> lt_1 p = false -> n = now) /\
  (finalised = true <->
     Exists (fun now => number_le (Num dur) (minus64 now start)) nows) /\
  (Exists (fun now => (start + dur <= now)%Q) nows -> finalised = true).
Proof.
  intros Hdur Hdbl frames finalised.
  assert (Hfin : finalised = true <->
     Exists (fun now => number_le (Num dur) (minus64 now start)) nows).
  { unfold finalised. rewrite frame_loop64_finalises.
    split; intros H; eapply Exists_impl; try exact H;
      intros now; now apply lt_1_progress64. }
  repeat match goal with |- _ /\ _ => split end.
  - intros now p H. apply frame_loop64_values in H as [_ ->].
    split; [|split].
    + now apply progress64_range.
    + now apply progress64_range.
    + now apply lt_1_progress64.
  - intros n1 p1 n2 p2 H1 H2 Hle.
    apply frame_loop64_values in H1 as [_ ->].
    apply frame_loop64_values in H2 as [_ ->].
    now apply progress64_monotone.
  - intros H.
    destruct (frame_loop64_last dur start nows Hdur H) as (now & Hl & Hn & Hu).
    exists now.
    repeat match goal with |- _ /\ _ => split end; try assumption.
    now apply lt_1_progress64.
  - exact Hfin.
  - intros H. apply Hfin. eapply Exists_impl; [exact H|].
    intros now. now apply elapsed_is_computed.
Qed.

Lemma progress64_clamped_monotone_final_witness :
  let run := frame_loop64 900 100 [100; 117; 550; 1000; 1016]%Q in
  run.2 = true /\
  exists now, last run.1 = Some (now, Num 1) /\
              number_le (Num 900) (minus64 now 100).
Proof.
  destruct (progress64_clamped_monotone_final 900 100
              [100; 117; 550; 1000; 1016]%Q eq_refl eq_refl)
    as (_ & _ & Hlast & _).
  split; [reflexivity|].
  destruct (Hlast eq_refl) as (now & H1 & H2 & _).
  exists now. split; assumption.
Defined.

(** C4 as worded does not hold.  The value is clamped from above only: a
    frame stamped before the start of the session gets a negative value, and
    so does every frame of a session with a negative duration.  And the
    final frame can come before the duration has elapsed: with the doubles
    nearest to 0.3 and 900.3 as start and frame stamp, less than 900 ms have
    elapsed, the subtraction rounds to 900, and the loop finalises with the
    value 1. *)
Lemma progress64_leaves_unit_interval :
  let start := (5404319552844595 # 18014398509481984)%Q in
  let now := (3959561273946931 # 4398046511104)%Q in
  (exists q, progress64 900 100 91 = Num q /\ (q < 0)%Q) /\
  (exists q, progress64 (-900) 0 450 = Num q /\ (q < 0)%Q) /\
  is_double start = true /\ is_double now = true /\
  (start <= now)%Q /\ (now < start + 900)%Q /\
  frame_loop64 900 start [now] = ([(now, Num 1)], true).
Proof.
  intros start now.
  repeat match goal with |- _ /\ _ => split end;
    try (vm_compute; reflexivity);
    try (eexists; split; vm_compute; reflexivity).
  vm_compute. discriminate.
Qed.

(** ** Transitions come to an end *)

Lemma run_frames_idle (nows : list Q) (s : slider) :
  task s = None ->
  run (map (fun now => Frame now true) nows) s = s.
Proof.
  intros Htask. induction nows as [|n rest IH]; [reflexivity|].
  simpl. rewrite Htask. exact IH.
Qed.

(** The timer of a fade ends the transition. *)
Lemma fade_completes (s : slider) f t :
  inv s -> task s = Some (FadeTimer f t) ->
  let s' := state_of (handle Timeout s) in
  task s' = None /\ index s' = t /\ _isAnimating s' = false.
Proof.
  intros [Hv Ht] Etask. rewrite Etask in Ht.
  destruct Ht as (Ha & -> & Hvt & Hm). simpl. rewrite Etask.
  unfold fade_timeout, and_then, update.
  rewrite finish_returns
    by (unfold valid, slides_length in *; simpl; rewrite !length_mark; lia).
  unfold _emitChange. simpl.
  destruct (opt_onChange (opts s)); simpl; auto.
Qed.

Lemma handle_frame (s : slider) f t g start now ok :
  task s = Some (FrameLoop f t g start) ->
  handle (Frame now ok) s =
  match step (opt_duration (opts s)) start now ok g with
  | StepAgain g' => Returns (with_task (Some (FrameLoop f t g' start)) s)
  | StepResolved _ =>
    finish f t (with_task None
      (with_slides (mark t true (mark f false (slides s))) s))
  | StepRejected _ => _fadeImages f t s
  end.
Proof. intros E. unfold handle. rewrite E. reflexivity. Qed.

(** The session's frame loop, run inside the slider: once a frame stamp
    reaches the end of the duration the transition is over, with the target
    as the current index. *)
Lemma frame_events_complete (nows : list Q) (s : slider) f t g start :
  inv s -> task s = Some (FrameLoop f t g start) ->
  (frame_loop (opt_duration (opts s)) start g nows).2 = true ->
  let s' := run (map (fun now => Frame now true) nows) s in
  task s' = None /\ index s' = t /\ _isAnimating s' = false.
Proof.
  revert s g. induction nows as [|n rest IH]; intros s g Hinv Etask;
    [discriminate|].
  pose proof (inv_handle (Frame n true) s Hinv) as Hinv'.
  cbn [frame_loop map]. unfold run. cbn [fold_left].
  fold (run (map (fun now => Frame now true) rest)).
  rewrite (handle_frame s f t g start n true Etask) in *.
  destruct (step (opt_duration (opts s)) start n true g) as [g'|g'|g'].
  - destruct (frame_loop _ start g' rest) as [frames fin] eqn:El.
    cbn [snd state_of]. intros ->.
    apply (IH _ g'); [exact Hinv' | reflexivity |].
    cbn [opts with_task]. rewrite El. reflexivity.
  - intros _. destruct Hinv as [Hv Ht]. rewrite Etask in Ht.
    destruct Ht as (Ha & -> & Hvt & Hm).
    rewrite finish_returns
      by (unfold valid, slides_length in *; simpl;
          rewrite !length_mark; lia).
    unfold _emitChange.
    destruct (opt_onChange _); cbn [state_of];
      (rewrite run_frames_idle; [|reflexivity]); simpl; auto.
  - discriminate.
Qed.

(** ** Rounds of navigation *)

Lemma same_frame_activateIndex (s : slider) idx :
  same_frame s (state_of (_activateIndex idx s)).
Proof.
  unfold same_frame, _activateIndex.
  destruct (slide_at (slides s) (index s)); [|auto]. simpl.
  destruct (slide_at _ idx); simpl; rewrite ?length_mark; auto.
Qed.

Lemma same_frame_fadeImages (s : slider) f t :
  same_frame s (state_of (_fadeImages f t s)).
Proof. unfold same_frame. simpl. rewrite !length_mark. auto. Qed.

Lemma same_frame_finish (s : slider) f t :
  same_frame s (state_of (finish f t s)).
Proof.
  pose proof (same_frame_activateIndex s t) as H.
  unfold finish, and_then, update, _emitChange.
  destruct (_activateIndex t s) as [s'|s']; simpl in *; [|exact H].
  destruct (opt_onChange (opts s')); exact H.
Qed.

Lemma same_frame_show (s : slider) i :
  same_frame s (state_of (show i s)).
Proof.
  unfold show. destruct (_ || _); [split; reflexivity|].
  destruct (slide_at _ (index s)) as [a|]; [|split; reflexivity].
  destruct (slide_at _ i) as [b|]; [|split; reflexivity].
  destruct (_getDirectImg a), (_getDirectImg b);
    try apply same_frame_activateIndex.
  cbn [opts with_isAnimating THREE].
  destruct (opt_animation _); try destruct (_webglTransition _);
    try (split; reflexivity);
    apply (same_frame_fadeImages (with_isAnimating true s)).
Qed.

Lemma same_frame_handle (e : event) (s : slider) :
  same_frame s (state_of (handle e s)).
Proof.
  assert (Hm : forall l, length l = length (slides s) -> forall f t,
    same_frame s (state_of (finish f t (with_task None (with_slides l s))))).
  { intros l Hl f t.
    destruct (same_frame_finish (with_task None (with_slides l s)) f t)
      as [H1 H2].
    split; [rewrite H1; exact Hl | exact H2]. }
  destruct e; simpl.
  - unfold next. destruct (_ && _); [split; reflexivity|].
    apply same_frame_show.
  - unfold prev. destruct (_ && _); [split; reflexivity|].
    apply same_frame_show.
  - apply same_frame_show.
  - destruct (task s) as [[]|]; try (split; reflexivity).
    unfold fade_timeout, and_then, update. apply Hm.
    now rewrite !length_mark.
  - destruct (task s) as [[]|]; try (split; reflexivity).
    destruct (_webglTransition_loaded _ _ _ _).
    + apply same_frame_fadeImages.
    + split; simpl; rewrite ?length_mark; reflexivity.
  - destruct (task s) as [[]|]; try (split; reflexivity).
    destruct (step _ _ _ _ _).
    + split; reflexivity.
    + unfold and_then, update. apply Hm. now rewrite !length_mark.
    + apply same_frame_fadeImages.
Qed.

(** From any state between two events the slider can come to rest, and
    rests on its destination. *)
Lemma settle_reaches_destination (s : slider) :
  inv s ->
  let s' := run settle s in
  inv s' /\ same_frame s s' /\
  task s' = None /\ _isAnimating s' = false /\ index s' = destination s.
Proof.
  intros Hinv s'.
  assert (Hinv' : inv s') by now apply inv_run.
  assert (Hsame : same_frame s s').
  { subst s'. unfold run, settle. cbn [fold_left].
    pose proof (same_frame_handle (Textures false false 0) s) as [A1 A2].
    pose proof (same_frame_handle (Frame 0 false)
                  (state_of (handle (Textures false false 0) s))) as [B1 B2].
    pose proof (same_frame_handle Timeout
                  (state_of (handle (Frame 0 false)
                     (state_of (handle (Textures false false 0) s)))))
      as [C1 C2].
    split; congruence. }
  assert (Hrest : task s' = None /\ index s' = destination s).
  { subst s'. unfold destination.
    destruct (task s) as [[f t|f t lib g|f t g start]|] eqn:Etask.
    - unfold run, settle. cbn [fold_left].
      assert (E1 : handle (Textures false false 0) s = Returns s)
        by (unfold handle; rewrite Etask; reflexivity).
      rewrite E1. cbn [state_of].
      assert (E2 : handle (Frame 0 false) s = Returns s)
        by (unfold handle; rewrite Etask; reflexivity).
      rewrite E2. cbn [state_of].
      destruct (fade_completes s f t Hinv Etask) as (H1 & H2 & _). auto.
    - unfold run, settle. cbn [fold_left].
      assert (E1 : handle (Textures false false 0) s = _fadeImages f t s)
        by (unfold handle; rewrite Etask; reflexivity).
      rewrite E1.
      pose proof (inv_handle (Textures false false 0) s Hinv) as Hi1.
      rewrite E1 in Hi1.
      set (s1 := state_of (_fadeImages f t s)) in *.
      assert (Et1 : task s1 = Some (FadeTimer f t)) by reflexivity.
      assert (E2 : handle (Frame 0 false) s1 = Returns s1)
        by (unfold handle; rewrite Et1; reflexivity).
      rewrite E2. cbn [state_of].
      destruct (fade_completes s1 f t Hi1 Et1) as (H1 & H2 & _). auto.
    - unfold run, settle. cbn [fold_left].
      assert (E1 : handle (Textures false false 0) s = Returns s)
        by (unfold handle; rewrite Etask; reflexivity).
      rewrite E1. cbn [state_of].
      assert (E2 : handle (Frame 0 false) s = _fadeImages f t s)
        by (rewrite (handle_frame s f t g start 0 false Etask);
            reflexivity).
      pose proof (inv_handle (Frame 0 false) s Hinv) as Hi1.
      rewrite E2 in *.
      set (s1 := state_of (_fadeImages f t s)) in *.
      assert (Et1 : task s1 = Some (FadeTimer f t)) by reflexivity.
      destruct (fade_completes s1 f t Hi1 Et1) as (H1 & H2 & _). auto.
    - assert (E : forall e, In e settle -> handle e s = Returns s).
      { intros e [<-|[<-|[<-|[]]]]; unfold handle; now rewrite Etask. }
      unfold run, settle in *. cbn [fold_left].
      rewrite !E; cbn [state_of]; rewrite ?E; simpl; auto. }
  destruct Hrest as [Ht Hi]. conjs; try assumption; try apply Hsame.
  destruct Hinv' as [_ H]. rewrite Ht in H. apply H.
Qed.

(** A call of [next] (or [prev]) on a resting slider with looping on,
    followed to the end of the transition it starts. *)
Lemma show_round (s : slider) (t : Z) (e : event) :
  inv s -> task s = None -> valid s t ->
  handle e s = show t s ->
  let s' := run (e :: settle) s in
  inv s' /\ same_frame s s' /\ task s' = None /\ index s' = t.
Proof.
  intros Hinv Htask Ht He s'.
  assert (Hidle : _isAnimating s = false).
  { destruct Hinv as [_ H]. rewrite Htask in H. apply H. }
  destruct (show_destination s t Hidle Htask (proj1 Hinv) Ht)
    as (s1 & Es1 & Hd).
  pose proof (inv_show s t Hinv) as Hinv1.
  pose proof (same_frame_show s t) as [L1 O1].
  rewrite Es1 in Hinv1, L1, O1. cbn [state_of] in *.
  assert (Hs' : s' = run settle s1).
  { subst s'. unfold run at 1. cbn [fold_left]. rewrite He, Es1.
    reflexivity. }
  destruct (settle_reaches_destination s1 Hinv1)
    as (Hinv' & [L2 O2] & Htask' & _ & Hidx).
  rewrite <- Hs' in *. conjs; try assumption; try congruence.
  split; congruence.
Qed.

Lemma next_round (s : slider) :
  inv s -> task s = None -> opt_loop (opts s) = true ->
  let s' := run (Next :: settle) s in
  inv s' /\ same_frame s s' /\ task s' = None /\
  index s' = next_index (slides_length s) (index s).
Proof.
  intros Hinv Htask Hloop. apply show_round; try assumption.
  - apply next_index_valid, Hinv.
  - now apply next_looping.
Qed.

Lemma prev_round (s : slider) :
  inv s -> task s = None -> opt_loop (opts s) = true ->
  let s' := run (Prev :: settle) s in
  inv s' /\ same_frame s s' /\ task s' = None /\
  index s' = prev_index (slides_length s) (index s).
Proof.
  intros Hinv Htask Hloop. apply show_round; try assumption.
  - apply prev_index_valid, Hinv.
  - now apply prev_looping.
Qed.

Lemma run_app (es1 es2 : list event) (s : slider) :
  run (es1 ++ es2) s = run es2 (run es1 s).
Proof. unfold run. apply fold_left_app. Qed.

Lemma next_rounds_index (k : nat) (s : slider) :
  inv s -> task s = None -> opt_loop (opts s) = true ->
  let s' := run (next_rounds k) s in
  inv s' /\ same_frame s s' /\ task s' = None /\
  index s' = Nat.iter k (next_index (slides_length s)) (index s).
Proof.
  intros Hinv Htask Hloop. cbv zeta. induction k as [|k IH].
  - simpl. unfold same_frame. conjs; auto.
  - destruct IH as (Hi & [L O] & Ht & Hx).
    cbn [next_rounds]. rewrite run_app.
    destruct (next_round (run (next_rounds k) s) Hi Ht)
      as (Hi' & [L' O'] & Ht' & Hx'); [congruence|].
    conjs; try assumption.
    + split; congruence.
    + rewrite Hx', Nat.iter_succ, Hx. unfold slides_length. now rewrite L.
Qed.

(** On the slider itself: with looping on, as many rounds of [next] as
    there are slides bring a resting slider back to where it was. *)
Corollary next_rounds_return (s : slider) :
  inv s -> task s = None -> opt_loop (opts s) = true ->
  index (run (next_rounds (length (slides s))) s) = index s.
Proof.
  intros Hinv Htask Hloop.
  destruct (next_rounds_index (length (slides s)) s Hinv Htask Hloop)
    as (_ & _ & _ & ->).
  pose proof (proj1 Hinv) as Hv. unfold valid in Hv.
  rewrite iter_next_index by exact Hv. fold (slides_length s).
  rewrite <- (Z.mul_1_l (slides_length s)) at 1.
  rewrite Z.mod_add by lia. apply Z.mod_small. lia.
Qed.

Lemma prev_after_next_index len i :
  0 <= i < len -> prev_index len (next_index len i) = i.
Proof.
  intros Hi. rewrite prev_index_mod by (apply next_index_valid; lia).
  rewrite next_index_mod, Zminus_mod_idemp_l by lia.
  replace (i + 1 - 1) with i by lia. apply Z.mod_small. lia.
Qed.

Lemma next_after_prev_index len i :
  0 <= i < len -> next_index len (prev_index len i) = i.
Proof.
  intros Hi. rewrite next_index_mod by (apply prev_index_valid; lia).
  rewrite prev_index_mod, Z.add_mod_idemp_l by lia.
  replace (i - 1 + 1) with i by lia. apply Z.mod_small. lia.
Qed.

(** On the slider itself: [next] then [prev], and [prev] then [next], each
    run to the end of its transition, bring a resting slider back. *)
Corollary next_prev_rounds_return (s : slider) :
  inv s -> task s = None -> opt_loop (opts s) = true ->
  index (run ((Next :: settle) ++ (Prev :: settle)) s) = index s /\
  index (run ((Prev :: settle) ++ (Next :: settle)) s) = index s.
Proof.
  intros Hinv Htask Hloop. pose proof (proj1 Hinv) as Hv. unfold valid in Hv.
  rewrite !run_app. split.
  - destruct (next_round s Hinv Htask Hloop) as (Hi & [L O] & Ht & Hx).
    destruct (prev_round _ Hi Ht) as (_ & _ & _ & ->); [congruence|].
    rewrite Hx. unfold slides_length. rewrite L.
    now apply prev_after_next_index.
  - destruct (prev_round s Hinv Htask Hloop) as (Hi & [L O] & Ht & Hx).
    destruct (next_round _ Hi Ht) as (_ & _ & _ & ->); [congruence|].
    rewrite Hx. unfold slides_length. rewrite L.
    now apply next_after_prev_index.
Qed.

(** ** The change notification *)

Lemma emitChange_calls (s : slider) f t :
  opt_onChange (opts s) = true ->
  _emitChange f t s = Returns (with_calls (calls s ++ [(t, f)]) s).
Proof. intros H. unfold _emitChange. now rewrite H. Qed.

(** An event that ends the transition in flight makes its target the
    current index, clears the animating flag and calls [onChange] once,
    with the target first and the origin second. *)
Lemma completed_transition_notifies (e : event) (s : slider) p f t :
  inv s ->
  opt_onChange (opts s) = true ->
  task s = Some p -> transition_of p = (f, t) ->
  task (state_of (handle e s)) = None ->
  index (state_of (handle e s)) = t /\
  _isAnimating (state_of (handle e s)) = false /\
  calls (state_of (handle e s)) = calls s ++ [(t, f)].
Proof.
  intros Hinv Hcb Etask Etr.
  assert (Ha : _isAnimating s = true).
  { destruct Hinv as [_ Ht]. rewrite Etask in Ht.
    destruct p; apply Ht. }
  assert (Hv : valid s (index s) /\ valid s t).
  { destruct Hinv as [Hv Ht]. rewrite Etask in Ht.
    destruct p; injection Etr as <- <-; intuition. }
  assert (Hfin : forall l,
    length l = length (slides s) ->
    let s' := state_of (finish f t (with_task None (with_slides l s))) in
    index s' = t /\ _isAnimating s' = false /\
    calls s' = calls s ++ [(t, f)]).
  { intros l Hl. rewrite finish_returns, emitChange_calls; simpl; auto.
    all: unfold valid, slides_length in *; simpl; rewrite ?Hl; tauto. }
  destruct e; simpl.
  - unfold next. destruct (_ && _);
      [|rewrite show_noop_guard by auto]; simpl; congruence.
  - unfold prev. destruct (_ && _);
      [|rewrite show_noop_guard by auto]; simpl; congruence.
  - rewrite show_noop_guard by auto. simpl. congruence.
  - rewrite Etask. destruct p; simpl; try congruence.
    injection Etr as <- <-. intros _.
    unfold fade_timeout, and_then, update. apply Hfin.
    now rewrite !length_mark.
  - rewrite Etask. destruct p; simpl; try congruence.
    destruct (_webglTransition_loaded _ _ _ _); simpl; congruence.
  - rewrite Etask. destruct p; simpl; try congruence.
    injection Etr as <- <-.
    destruct (step _ _ _ _ _); simpl; try congruence. intros _.
    unfold and_then, update. apply Hfin. now rewrite !length_mark.
Qed.

(** C1 (refuted by the code): a fade from slide 0 to slide 1 completes and
    the callback is called once, with first argument 1, the index moved to,
    and second argument 0, the index moved from. *)
Theorem onChange_gets_target_first :
  let s0 := initial two_photos (with_callback AnimNone) None in
  let s := run [Show 1; Timeout] s0 in
  index s0 = 0 /\ index s = 1 /\ _isAnimating s = false /\
  calls s = [(1, 0)] /\ calls s <> [(0, 1)].
Proof.
  intros s0 s. conjs; try reflexivity.
  intros H. vm_compute in H. discriminate.
Qed.

(** C3 (refuted by the code): when the target slide has no image, [show]
    moves the index at once and stays idle, but the supplied callback is
    not called. *)
Theorem instant_switch_is_silent :
  let s0 :=
    initial photo_then_text (with_callback AnimWave) (Some three_full) in
  let s := run [Show 1] s0 in
  handle (Show 1) s0 = Returns s /\
  index s0 = 0 /\ index s = 1 /\
  _isAnimating s = false /\ task s = None /\
  calls s = [].
Proof. intros s0 s. conjs; reflexivity. Qed.

(** ** Resources of a failed session *)

(** A session that is rejected because the library is missing or incomplete
    has created nothing. *)
Lemma rejected_without_library three g :
  _webglTransition three = BeginRejected g ->
  (three = None \/
   exists lib, three = Some lib /\ missingComponents lib <> []) ->
  released g.
Proof.
  unfold _webglTransition. intros H [->|(lib & -> & Hm)].
  - injection H as <-. unfold released. simpl. conjs; congruence.
  - destruct (missingComponents lib); [congruence|].
    injection H as <-. unfold released. simpl. conjs; congruence.
Qed.

(** The resolving frame releases everything. *)
Lemma resolved_session_released dur start now ok g g' :
  step dur start now ok g = StepResolved g' -> released g'.
Proof.
  unfold step. destruct ok; [|discriminate].
  destruct (lt_1 _); [discriminate|]. intros [= <-].
  unfold released. simpl.
  conjs; try reflexivity;
    match goal with |- dispose ?r <> _ => destruct r; discriminate end.
Qed.

(** A rendering error removes the canvas and disposes of nothing. *)
Lemma step_rejected_keeps_resources dur start now ok g g' :
  step dur start now ok g = StepRejected g' ->
  canvas g' = false /\ renderer g' = renderer g /\
  geometry g' = geometry g /\ material g' = material g /\
  tex0 g' = tex0 g /\ tex1 g' = tex1 g.
Proof.
  unfold step. destruct ok; [destruct (lt_1 _); discriminate|].
  intros [= <-]. simpl. conjs; reflexivity.
Qed.

(** A library that cannot create a WebGL context: the session is rejected
    with its canvas left in the document. *)
Lemma context_failure_keeps_canvas lib :
  missingComponents lib = [] -> webgl_context lib = false ->
  exists g, _webglTransition (Some lib) = BeginRejected g /\ canvas g = true.
Proof.
  intros Hm Hc. unfold _webglTransition. rewrite Hm, Hc.
  eexists. split; reflexivity.
Qed.

(** C2 (refuted by the code): with the library complete, a session whose
    second texture fails to load is rejected with the canvas still in the
    document and renderer, geometry and the first texture alive; a session
    whose first frame fails to render is rejected with the canvas removed
    and renderer, geometry, material and both textures alive. *)
Theorem failed_session_keeps_resources :
  exists lib g,
    _webglTransition (Some three_full) = BeginAwait lib g /\
    (exists g',
       _webglTransition_loaded lib true false g = LoadRejected g' /\
       canvas g' = true /\ renderer g' = Live /\ geometry g' = Live /\
       tex0 g' = Live /\ ~ released g') /\
    (exists g1 g2,
       _webglTransition_loaded lib true true g = LoadRunning g1 /\
       step 900 0 16 false g1 = StepRejected g2 /\
       canvas g2 = false /\ renderer g2 = Live /\ geometry g2 = Live /\
       material g2 = Live /\ tex0 g2 = Live /\ tex1 g2 = Live /\
       ~ released g2).
Proof.
  do 2 eexists. split; [reflexivity|]. split.
  - eexists. conjs; try reflexivity.
    intros (H & _). discriminate.
  - do 2 eexists. conjs; try reflexivity.
    intros (_ & H & _). now apply H.
Qed.

(** * Further properties of the code *)

(** ** [_getDirectImg] and the constructor *)

Lemma find_is_img_first (l : list node) (n : node) :
  List.find is_img l = Some n ->
  exists src pre post,
    n = Img src /\ l = pre ++ Img src :: post /\
    Forall (fun c => is_img c = false) pre.
Proof.
  induction l as [|c l IH]; [discriminate|]. simpl.
  destruct c as [src|tag]; simpl.
  - intros [= <-]. exists src, [], l. conjs; auto.
  - intros H. destruct (IH H) as (src & pre & post & -> & -> & Hpre).
    exists src, (Elem tag :: pre), post. conjs; auto.
Qed.

Lemma find_is_img_none (l : list node) :
  List.find is_img l = None <-> Forall (fun c => is_img c = false) l.
Proof.
  induction l as [|c l IH]; simpl.
  - split; auto.
  - destruct (is_img c) eqn:E.
    + split; [discriminate|]. intros H. inversion H. congruence.
    + rewrite IH. split; [now constructor | intros H; now inversion H].
Qed.

(** X1: [_getDirectImg] yields the first direct child that is an image,
    whatever comes after it, and yields nothing exactly when no direct child
    is an image. *)
Theorem getDirectImg_first_image (slideEl : slide) :
  (forall n, _getDirectImg slideEl = Some n ->
     exists src pre post,
       n = Img src /\ children slideEl = pre ++ Img src :: post /\
       Forall (fun c => is_img c = false) pre) /\
  (_getDirectImg slideEl = None <->
   Forall (fun c => is_img c = false) (children slideEl)).
Proof.
  unfold _getDirectImg, querySelector_scope_img. split.
  - intros n. destruct (List.find is_img (children slideEl)) eqn:E.
    + intros [= <-]. now apply find_is_img_first.
    + intros H. congruence.
  - destruct (List.find is_img (children slideEl)) eqn:E.
    + split; [discriminate|]. intros H.
      apply find_is_img_none in H. congruence.
    + split; [|reflexivity]. intros _. now apply find_is_img_none.
Qed.

(** X2: construction fails exactly when there is no slide; otherwise the
    slider has one slide per [<div>] with its children in order, rests at
    index 0 with no call made, and slide 0 alone is marked. *)
Theorem constructor_outcome divs o three :
  (constructor divs o three = None <-> divs = []) /\
  (forall s, constructor divs o three = Some s ->
     map children (slides s) = divs /\
     index s = 0 /\ _isAnimating s = false /\ task s = None /\
     calls s = [] /\ opts s = o /\ THREE s = three /\
     markers_are (slides s) (fun i => i = 0)).
Proof.
  split.
  - unfold constructor. destruct divs; split; congruence.
  - intros s Hc. pose proof (inv_constructor _ _ _ _ Hc) as [_ Hinv].
    unfold constructor in Hc. destruct divs as [|d ds] eqn:E; [discriminate|].
    injection Hc as <-. rewrite <- E in *. clear E d ds.
    simpl in *. conjs; try reflexivity; try apply Hinv.
    apply list_eq. intros k. rewrite list_lookup_fmap, list_lookup_imap.
    now destruct (divs !! k).
Qed.

Lemma getDirectImg_first_image_witness :
  exists src pre post,
    Img "b.jpg" = Img src /\
    [Elem "H2"; Img "b.jpg"; Img "c.jpg"]%string = pre ++ Img src :: post /\
    Forall (fun c => is_img c = false) pre.
Proof.
  apply (proj1 (getDirectImg_first_image
    (Slide false [Elem "H2"; Img "b.jpg"; Img "c.jpg"]%string))).
  reflexivity.
Defined.

Lemma constructor_outcome_witness :
  map children (slides (initial two_photos defaultOptions None)) = two_photos.
Proof.
  apply (proj2 (constructor_outcome two_photos defaultOptions None)).
  reflexivity.
Defined.

(** ** The component check and the life of a session *)

Lemma missingComponents_nil (lib : three_lib) :
  missingComponents lib = [] <->
  forall c, c ∈ requiredComponents -> has lib c = true.
Proof.
  assert (Hin : forall c, c ∈ missingComponents lib <->
                          c ∈ requiredComponents /\ has lib c = false).
  { intros c. unfold missingComponents.
    rewrite !list_elem_of_In, filter_In, negb_true_iff. reflexivity. }
  split.
  - intros E c Hc. destruct (has lib c) eqn:Eh; [reflexivity|].
    assert (Hm : c ∈ missingComponents lib) by (apply Hin; auto).
    rewrite E in Hm. inversion Hm.
  - intros H. destruct (missingComponents lib) as [|c l] eqn:E; [reflexivity|].
    assert (Hm : c ∈ c :: l) by left.
    apply Hin in Hm as [Hc Hh]. rewrite (H c Hc) in Hh. discriminate.
Qed.

(** X4: a session gets as far as loading its textures exactly when the
    library is found, has each of the six required components and can
    create a WebGL context; it then holds the canvas, a renderer and a
    geometry, and nothing else yet. *)
Theorem session_begins_iff (three : option three_lib) lib g :
  _webglTransition three = BeginAwait lib g <->
  three = Some lib /\
  (forall c, c ∈ requiredComponents -> has lib c = true) /\
  webgl_context lib = true /\
  g = Session true Live Live Absent Absent Absent (Num 0) 0 false.
Proof.
  rewrite <- missingComponents_nil. unfold _webglTransition. split.
  - destruct three as [l|]; [|discriminate].
    destruct (missingComponents l) eqn:E; [|discriminate].
    destruct (webgl_context l) eqn:Ec; [|discriminate].
    intros [= <- <-]. auto.
  - intros (-> & -> & -> & ->). reflexivity.
Qed.

Lemma session_begins_iff_witness :
  _webglTransition (Some three_full) =
  BeginAwait three_full
    (Session true Live Live Absent Absent Absent (Num 0) 0 false).
Proof.
  apply session_begins_iff. conjs; try reflexivity.
  intros c Hc. apply (proj1 (missingComponents_nil three_full) eq_refl c Hc).
Defined.

Lemma running_step dur start now ok g :
  running g ->
  match step dur start now ok g with
  | StepAgain g' => running g'
  | StepResolved g' => released g'
  | StepRejected g' =>
    canvas g' = false /\ renderer g' = Live /\ geometry g' = Live /\
    material g' = Live /\ tex0 g' = Live /\ tex1 g' = Live
  end.
Proof.
  intros (Hc & Hr & Hg & Hm & H0 & H1). unfold step.
  destruct ok; [destruct (lt_1 _)|]; unfold running, released; simpl;
    rewrite ?Hr, ?Hg, ?Hm, ?H0, ?H1; simpl; conjs; congruence.
Qed.

(** X5: a session whose textures both load enters its frame loop with the
    canvas attached and renderer, geometry, material and both textures
    alive; they stay so for as long as frames are rescheduled; the frame
    that resolves the session removes the canvas and disposes of all five;
    a frame that fails to render removes the canvas and disposes of none. *)
Theorem session_lifecycle three lib g0 g1 dur start
    (frames : list (Q * bool)) :
  _webglTransition three = BeginAwait lib g0 ->
  _webglTransition_loaded lib true true g0 = LoadRunning g1 ->
  running g1 /\
  match frames_end dur start g1 frames with
  | StepAgain g => running g
  | StepResolved g => released g
  | StepRejected g =>
    canvas g = false /\ renderer g = Live /\ geometry g = Live /\
    material g = Live /\ tex0 g = Live /\ tex1 g = Live
  end.
Proof.
  intros Hb Hl. apply session_begins_iff in Hb as (_ & _ & _ & ->).
  assert (Hrun : running g1).
  { unfold _webglTransition_loaded in Hl. simpl in Hl.
    destruct (has lib "Vector2"); [|discriminate].
    destruct (has lib "Mesh"); [|discriminate].
    injection Hl as <-. unfold running. simpl. conjs; reflexivity. }
  split; [exact Hrun|]. clear Hl. revert g1 Hrun.
  induction frames as [|[now ok] rest IH]; intros g Hrun; simpl.
  - exact Hrun.
  - pose proof (running_step dur start now ok g Hrun) as Hs.
    destruct (step dur start now ok g) as [g'|g'|g'];
      [apply IH; exact Hs | exact Hs | exact Hs].
Qed.

Lemma session_lifecycle_witness :
  exists g,
    frames_end 900 0 (Session true Live Live Live Live Live (Num 0) 0 true)
              [(16, true); (450, true); (901, true)]%Q = StepResolved g /\
            released g.
Proof.
  destruct (session_lifecycle (Some three_full) three_full _ _ 900 0
              [(16, true); (450, true); (901, true)]%Q eq_refl eq_refl)
    as [_ H].
  eexists. split; [reflexivity | exact H].
Defined.



(** ** Autoplay *)

Lemma timer_inv_stop (p : player) : timer_inv p -> timer_inv (stop p).
Proof.
  intros [Hi Hb]. unfold stop, timer_inv in *.
  destruct (_timer p) as [id|] eqn:E; simpl; [|rewrite E; auto].
  rewrite Hi, difference_diag_L. split; [reflexivity|].
  intros x Hx. now apply not_elem_of_empty in Hx.
Qed.

Lemma timer_inv_play (p : player) : timer_inv p -> timer_inv (play p).
Proof.
  intros H. apply timer_inv_stop in H as [Hi Hb].
  assert (He : intervals (stop p) = ∅).
  { unfold stop in *. destruct (_timer p) eqn:E; simpl in *; [exact Hi|].
    now rewrite E in Hi. }
  unfold play, timer_inv. simpl. rewrite He, union_empty_r_L.
  split; [reflexivity|].
  intros x Hx. rewrite ?union_empty_r_L in Hx.
  apply elem_of_singleton in Hx as ->. lia.
Qed.

Lemma timer_inv_exec (c : command) (p : player) :
  timer_inv p -> timer_inv (exec c p).
Proof.
  intros H. destruct c; simpl.
  - now apply timer_inv_play.
  - now apply timer_inv_stop.
  - now apply timer_inv_stop.
  - destruct (decide _); exact H.
  - exact H.
Qed.

(** X7: however [play], [stop], [destroy], interval ticks and slider events
    follow one another after construction, with or without the autoplay
    option, the slider never has more than one interval running, and the
    one running is the one remembered in [_timer]. *)
Theorem at_most_one_interval divs o autoplay interval three p0
    (cs : list command) :
  new_player divs o autoplay interval three = Some p0 ->
  let p := execs cs p0 in
  intervals p = match _timer p with Some id => {[id]} | None => ∅ end /\
  (size (intervals p) <= 1)%nat.
Proof.
  intros Hnew p.
  assert (H0 : timer_inv p0).
  { unfold new_player in Hnew.
    destruct (constructor divs o three); [|discriminate].
    injection Hnew as <-.
    assert (Hi : timer_inv (Player s interval None ∅ 1)).
    { split; [reflexivity|]. intros id Hid.
      now apply not_elem_of_empty in Hid. }
    destruct autoplay; [now apply timer_inv_play | exact Hi]. }
  assert (H : timer_inv p).
  { subst p. clear Hnew. revert p0 H0.
    induction cs as [|c cs IH]; intros p0 H0; [exact H0|].
    apply IH, timer_inv_exec, H0. }
  destruct H as [Hi _]. split; [exact Hi|]. rewrite Hi.
  destruct (_timer p); [rewrite size_singleton | rewrite size_empty]; lia.
Qed.

Lemma at_most_one_interval_witness :
  let p := execs [Play; Tick 1; Play; Do (Show 1); Play]
             (Player (initial two_photos defaultOptions None) 4000
                     (Some 1%positive) {[1%positive]} 2) in
  intervals p = match _timer p with Some id => {[id]} | None => ∅ end /\
  (size (intervals p) <= 1)%nat.
Proof.
  apply (at_most_one_interval two_photos defaultOptions true 4000 None).
  reflexivity.
Defined.

(** X8: [play] clears the interval it replaces and leaves exactly the new
    one running; [stop] and [destroy] leave none, do not touch the slider,
    and are idempotent; after them no tick of an old handle navigates. *)
Theorem play_stop_destroy (p : player) :
  timer_inv p ->
  (intervals (play p) = {[next_handle p]} /\
   _timer (play p) = Some (next_handle p) /\
   forall id, _timer p = Some id -> id ∉ intervals (play p)) /\
  (intervals (stop p) = ∅ /\ _timer (stop p) = None /\
   core (stop p) = core p /\ stop (stop p) = stop p /\
   destroy p = stop p /\
   forall id, exec (Tick id) (stop p) = stop p).
Proof.
  intros [Hi Hb].
  assert (He : intervals (stop p) = ∅ /\ _timer (stop p) = None /\
               core (stop p) = core p /\ next_handle (stop p) = next_handle p).
  { unfold stop. destruct (_timer p) eqn:E; simpl; rewrite ?E;
      conjs; auto. rewrite Hi. apply difference_diag_L. }
  destruct He as (He & Ht & Hc & Hn). split.
  - unfold play. simpl. rewrite He, Hn, union_empty_r_L.
    conjs; try reflexivity.
    intros id Hid. rewrite Hid in Hi.
    assert (Hlt : (id < next_handle p)%positive)
      by (apply Hb; rewrite Hi; now apply elem_of_singleton).
    intros Hin. rewrite ?union_empty_r_L in Hin.
    apply elem_of_singleton in Hin. lia.
  - conjs; try assumption; try reflexivity.
    + unfold stop at 1. now rewrite Ht.
    + intros id. simpl. rewrite He.
      destruct (decide (id ∈ ∅)) as [Hin|]; [|reflexivity].
      now apply not_elem_of_empty in Hin.
Qed.

Lemma play_stop_destroy_witness :
  let p := Player (initial two_photos defaultOptions None) 4000
                  (Some 3%positive) {[3%positive]} 4 in
  intervals (play p) = {[4%positive]} /\ intervals (stop p) = ∅.
Proof.
  intros p.
  assert (H : timer_inv p).
  { split; [reflexivity|]. intros id Hid. simpl in Hid.
    apply elem_of_singleton in Hid as ->. reflexivity. }
  destruct (play_stop_destroy p H) as ((A & _) & (B & _)).
  split; assumption.
Defined.

(** ** What one event can do *)

Lemma reachable_inv (s : slider) : reachable s -> inv s.
Proof.
  intros (divs & o & three & s0 & es & Hc & ->).
  apply inv_run, (inv_constructor _ _ _ _ Hc).
Qed.

Lemma reachable_initial divs o three :
  divs <> [] -> reachable (initial divs o three).
Proof.
  intros H. exists divs, o, three, (initial divs o three), [].
  split; [|reflexivity]. unfold constructor. destruct divs; congruence.
Qed.

Lemma reachable_run (es : list event) (s : slider) :
  reachable s -> reachable (run es s).
Proof.
  intros (divs & o & three & s0 & es0 & Hc & ->).
  exists divs, o, three, s0, (es0 ++ es). split; [exact Hc|].
  now rewrite run_app.
Qed.

Lemma show_cases (s : slider) (i : Z) :
  inv s ->
  let s' := state_of (show i s) in
  unchanged s s' \/ starts s s' \/ switches s s'.
Proof.
  intros Hinv. unfold show.
  destruct (_isAnimating s) eqn:Ha; [now left|]. simpl.
  destruct (Z.eqb_spec i (index s)) as [->|Hne]; [now left|].
  destruct (slide_at (slides s) (index s)) as [a|] eqn:Ea; [|now left].
  destruct (slide_at (slides s) i) as [b|] eqn:Eb; [|now left].
  assert (Hvi : valid s i) by (apply slide_at_Some; rewrite Eb; eauto).
  destruct Hinv as [Hv Ht].
  destruct (task s) as [[]|] eqn:Etask;
    try (destruct Ht as [Ht _]; congruence).
  assert (Hsw : switches s (state_of (_activateIndex i s))).
  { rewrite activateIndex_returns by assumption.
    unfold switches. simpl. auto. }
  assert (Hst : forall p, transition_of p = (index s, i) ->
                starts s (with_task (Some p) (with_isAnimating true s))).
  { intros p Hp. unfold starts. simpl. conjs; auto. eauto. }
  assert (Hfd : starts s (state_of (_fadeImages (index s) i
                                      (with_isAnimating true s)))).
  { unfold starts. simpl. conjs; auto. eauto. }
  destruct (_getDirectImg a), (_getDirectImg b); try (right; right; exact Hsw).
  right; left. cbn [opts with_isAnimating THREE].
  destruct (opt_animation (opts s)); try exact Hfd.
  all: destruct (_webglTransition (THREE s)); try exact Hfd.
  all: apply (Hst (TextureLoad _ _ _ _)); reflexivity.
Qed.

Lemma finish_completes (s : slider) (l : list slide) p t :
  valid s (index s) -> valid s t -> length l = length (slides s) ->
  task s = Some p -> transition_of p = (index s, t) ->
  completes s (state_of (finish (index s) t
                           (with_task None (with_slides l s)))).
Proof.
  intros Hv Hvt Hl Etask Etr.
  rewrite finish_returns
    by (unfold valid, slides_length in *; simpl; rewrite ?Hl; lia).
  exists p, t. unfold _emitChange, emitted. simpl.
  destruct (opt_onChange (opts s)); simpl; conjs; auto.
  now rewrite app_nil_r.
Qed.

Lemma handle_cases (e : event) (s : slider) :
  inv s ->
  let s' := state_of (handle e s) in
  unchanged s s' \/ starts s s' \/ switches s s' \/
  goes_on s s' \/ completes s s'.
Proof.
  intros Hinv.
  assert (Hshow : forall i, let s' := state_of (show i s) in
    unchanged s s' \/ starts s s' \/ switches s s' \/
    goes_on s s' \/ completes s s').
  { intros i. destruct (show_cases s i Hinv) as [H|[H|H]]; auto. }
  assert (Hon : forall p p', task s = Some p ->
    transition_of p' = transition_of p -> _isAnimating s = true ->
    forall l, goes_on s (with_task (Some p') (with_slides l s))).
  { intros p p' Hp Htr Ha l. unfold goes_on. simpl. conjs; eauto. }
  destruct e; simpl.
  - unfold next. destruct (_ && _); [now left | apply Hshow].
  - unfold prev. destruct (_ && _); [now left | apply Hshow].
  - apply Hshow.
  - destruct (task s) as [[f t|f t lib g|f t g start]|] eqn:Etask;
      try now left.
    destruct Hinv as [Hv Ht]. rewrite Etask in Ht.
    destruct Ht as (Ha & -> & Hvt & Hm).
    right; right; right; right. unfold fade_timeout, and_then, update.
    eapply finish_completes; eauto. now rewrite !length_mark.
  - destruct (task s) as [[f t|f t lib g|f t g start]|] eqn:Etask;
      try now left.
    destruct Hinv as [Hv Ht]. rewrite Etask in Ht.
    destruct Ht as (Ha & -> & Hvt & Hm).
    right; right; right; left.
    destruct (_webglTransition_loaded lib ok0 ok1 g); simpl.
    + apply (Hon _ (FadeTimer _ _) eq_refl); auto.
    + apply (Hon _ (FrameLoop _ _ _ _) eq_refl); auto.
  - destruct (task s) as [[f t|f t lib g|f t g start]|] eqn:Etask;
      try now left.
    destruct Hinv as [Hv Ht]. rewrite Etask in Ht.
    destruct Ht as (Ha & -> & Hvt & Hm).
    destruct (step _ _ _ _ _); simpl.
    + right; right; right; left.
      unfold goes_on. simpl. conjs; eauto.
    + right; right; right; right. unfold and_then, update.
      eapply finish_completes; eauto. now rewrite !length_mark.
    + right; right; right; left.
      apply (Hon _ (FadeTimer _ _) eq_refl); auto.
Qed.

Lemma destination_of_task (s : slider) p f t :
  task s = Some p -> transition_of p = (f, t) -> destination s = t.
Proof.
  intros Hp Htr. unfold destination. rewrite Hp.
  destruct p; injection Htr as _ <-; reflexivity.
Qed.

(** An event that leaves a slider in transition at rest has completed the
    transition. *)
Lemma rest_after (e : event) (s : slider) p f t :
  inv s -> task s = Some p -> transition_of p = (f, t) ->
  let s' := state_of (handle e s) in
  task s' = None ->
  f = index s /\ index s' = t /\ _isAnimating s' = false /\
  calls s' = calls s ++ emitted (opts s) f t /\
  markers_are (slides s') (fun i => i = t) /\ inv s'.
Proof.
  intros Hinv Hp Htr s' Hrest.
  pose proof (inv_handle e s Hinv) as Hinv'. fold s' in Hinv'.
  destruct (handle_cases e s Hinv) as [H|[H|[H|[H|H]]]]; fold s' in H.
  - unfold unchanged in H. rewrite H in Hrest. congruence.
  - destruct H as (H & _). congruence.
  - destruct H as (H & _). congruence.
  - destruct H as (_ & _ & _ & q & q' & _ & H & _). congruence.
  - destruct H as (q & t' & Hq & Hqt & _ & Ha & Hi & Hc).
    assert (q = p) as -> by congruence.
    rewrite Htr in Hqt. injection Hqt as -> ->.
    conjs; auto.
    destruct Hinv' as [_ Hm]. rewrite Hrest in Hm.
    destruct Hm as [_ Hm]. now rewrite Hi in Hm.
Qed.

(** X9: every event either leaves the call log alone or, when a callback
    was supplied and the event brings a transition to its end, adds one
    call, whose first argument is the index after the event and whose second
    is the index before it. *)
Theorem one_call_per_completion (s : slider) (e : event) :
  reachable s ->
  let s' := state_of (handle e s) in
  calls s' = calls s \/
  (opt_onChange (opts s) = true /\ task s <> None /\ task s' = None /\
   calls s' = calls s ++ [(index s', index s)]).
Proof.
  intros Hr s'. apply reachable_inv in Hr.
  destruct (handle_cases e s Hr) as [H|[H|[H|[H|H]]]]; fold s' in H.
  - left. unfold unchanged in H. now rewrite H.
  - left. apply H.
  - left. apply H.
  - left. apply H.
  - destruct H as (p & t & Hp & _ & Hrest & _ & Hi & Hc).
    unfold emitted in Hc. destruct (opt_onChange (opts s)).
    + right. conjs; auto; [congruence | now rewrite Hi].
    + left. now rewrite app_nil_r in Hc.
Qed.

Lemma one_call_per_completion_witness :
  let s := run [Show 1] (initial two_photos (with_callback AnimNone) None) in
  let s' := state_of (handle Timeout s) in
  calls s' = calls s \/
  (opt_onChange (opts s) = true /\ task s <> None /\ task s' = None /\
   calls s' = calls s ++ [(index s', index s)]).
Proof.
  apply (one_call_per_completion _ Timeout).
  apply reachable_run, reachable_initial. discriminate.
Defined.

(** X10: while a transition is in flight the index is the one it started
    from; the index moves only with an event that leaves the slider at
    rest, and then to a valid position: the target of the transition that
    was in flight, if there was one. *)
Theorem index_moves_only_to_rest (s : slider) (e : event) :
  reachable s ->
  let s' := state_of (handle e s) in
  (task s' <> None -> index s' = index s) /\
  (index s' <> index s ->
     task s' = None /\ _isAnimating s' = false /\ valid s (index s')) /\
  (task s <> None -> index s' <> index s -> index s' = destination s).
Proof.
  intros Hr s'. apply reachable_inv in Hr.
  pose proof (inv_handle e s Hr) as [Hv' _]. fold s' in Hv'.
  pose proof (same_frame_handle e s) as [Hl _]. fold s' in Hl.
  assert (Hvalid : valid s (index s')).
  { unfold valid, slides_length in *. now rewrite <- Hl. }
  destruct (handle_cases e s Hr) as [H|[H|[H|[H|H]]]]; fold s' in H.
  - unfold unchanged in H. rewrite H. conjs; congruence.
  - destruct H as (_ & _ & H & _). conjs; congruence.
  - destruct H as (H0 & H1 & H2 & _). conjs; try congruence. auto.
  - destruct H as (H & _). conjs; congruence.
  - destruct H as (p & t & Hp & Htr & Hrest & Ha & Hi & _).
    conjs; try congruence; auto.
    intros _ _. rewrite Hi. symmetry.
    now apply (destination_of_task s p (index s) t).
Qed.

Lemma index_moves_only_to_rest_witness :
  let s := run [Show 1] (initial two_photos (with_callback AnimNone) None) in
  let s' := state_of (handle Timeout s) in
  index s' = destination s.
Proof.
  intros s s'.
  destruct (index_moves_only_to_rest s Timeout) as (_ & _ & H).
  - apply reachable_run, reachable_initial. discriminate.
  - apply H; discriminate.
Defined.

Lemma classic_valid (s : slider) (i : Z) : valid s i \/ ~ valid s i.
Proof. unfold valid. lia. Qed.

Lemma show_valid_returns (s : slider) (i : Z) :
  inv s -> valid s i -> exists s', show i s = Returns s'.
Proof.
  intros Hinv Hi. unfold show.
  destruct (_ || _); [eauto|].
  destruct (proj2 (slide_at_Some (slides s) (index s)) (proj1 Hinv))
    as [a ->].
  destruct (proj2 (slide_at_Some (slides s) i) Hi) as [b ->].
  destruct (_getDirectImg a), (_getDirectImg b);
    try (rewrite activateIndex_returns by (apply Hinv || exact Hi); eauto).
  cbn [opts with_isAnimating THREE].
  destruct (opt_animation _); try destruct (_webglTransition _);
    unfold _fadeImages; eauto.
Qed.

Lemma finish_valid_returns (s : slider) f t :
  valid s (index s) -> valid s t -> exists s', finish f t s = Returns s'.
Proof.
  intros Hv Ht. rewrite finish_returns by assumption.
  unfold _emitChange. destruct (opt_onChange _); eauto.
Qed.

(** X11: on a constructed slider the only event that throws is [show] with
    an index outside the slides, and it leaves the slider as it was; [next]
    and [prev], the timer and the frame callbacks never throw. *)
Theorem only_show_out_of_range_throws (s s1 : slider) (e : event) :
  reachable s ->
  handle e s = Throws s1 ->
  s1 = s /\ exists i, e = Show i /\ ~ valid s i.
Proof.
  intros Hr. apply reachable_inv in Hr. pose proof Hr as [Hv Ht].
  assert (Hshow : forall i, valid s i -> show i s <> Throws s1).
  { intros i Hi. destruct (show_valid_returns s i Hr Hi) as [s' ->].
    discriminate. }
  assert (Hfin : forall f t l, valid s t -> length l = length (slides s) ->
    finish f t (with_task None (with_slides l s)) <> Throws s1).
  { intros f t l Hvt Hl.
    destruct (finish_valid_returns (with_task None (with_slides l s)) f t)
      as [s' ->]; try discriminate;
      unfold valid, slides_length in *; simpl; rewrite Hl; assumption. }
  destruct e; simpl.
  - unfold next. destruct (_ && _); [discriminate|]. intros H.
    exfalso. revert H. apply Hshow, next_index_valid, Hv.
  - unfold prev. destruct (_ && _); [discriminate|]. intros H.
    exfalso. revert H. apply Hshow, prev_index_valid, Hv.
  - intros H. destruct (classic_valid s i) as [Hi|Hi].
    + exfalso. revert H. now apply Hshow.
    + assert (Hs : show i s = Throws s \/ show i s = Returns s).
      { unfold show. destruct (_ || _); [now right|].
        destruct (slide_at (slides s) (index s)); [|now left].
        apply slide_at_None in Hi. rewrite Hi. now left. }
      destruct Hs as [Hs|Hs]; rewrite Hs in H; [|discriminate].
      injection H as <-. eauto.
  - destruct (task s) as [[f t|f t lib g|f t g start]|]; try discriminate.
    destruct Ht as (_ & _ & Hvt & _). intros H. exfalso. revert H.
    unfold fade_timeout, and_then, update. apply Hfin; auto.
    now rewrite !length_mark.
  - destruct (task s) as [[f t|f t lib g|f t g start]|]; try discriminate.
    destruct (_webglTransition_loaded _ _ _ _); discriminate.
  - destruct (task s) as [[f t|f t lib g|f t g start]|]; try discriminate.
    destruct Ht as (_ & _ & Hvt & _).
    destruct (step _ _ _ _ _); try discriminate. intros H. exfalso.
    revert H. unfold and_then, update. apply Hfin; auto.
    now rewrite !length_mark.
Qed.

Lemma only_show_out_of_range_throws_witness :
  let s := initial two_photos defaultOptions None in
  s = s /\ exists i, Show 7 = Show i /\ ~ valid s i.
Proof.
  apply (only_show_out_of_range_throws _ _ (Show 7)).
  - apply reachable_initial. discriminate.
  - reflexivity.
Defined.

(** ** The paths of a transition *)

Lemma idle_of_rest (s : slider) :
  inv s -> task s = None -> _isAnimating s = false.
Proof. intros [_ H] E. rewrite E in H. apply H. Qed.

(** X12: when the current or the target slide has no image, [show] moves to
    the target at once, whatever the animation option and the library are:
    the slider is at rest on the target, only the target is marked, and no
    call is made. *)
Theorem switch_without_image (s : slider) (t : Z) :
  reachable s -> task s = None ->
  valid s t -> t <> index s ->
  ~ (has_image s (index s) /\ has_image s t) ->
  exists s',
    show t s = Returns s' /\ index s' = t /\ _isAnimating s' = false /\
    task s' = None /\ calls s' = calls s /\
    markers_are (slides s') (fun i => i = t).
Proof.
  intros Hr Hrest Ht Hne Himg. apply reachable_inv in Hr.
  pose proof (idle_of_rest s Hr Hrest) as Hidle.
  pose proof (inv_show s t Hr) as Hinv'. revert Hinv'.
  unfold show. rewrite Hidle. simpl.
  destruct (Z.eqb_spec t (index s)); [contradiction|].
  destruct (proj2 (slide_at_Some (slides s) (index s)) (proj1 Hr))
    as [a Ea].
  destruct (proj2 (slide_at_Some (slides s) t) Ht) as [b Eb].
  rewrite Ea, Eb.
  assert (Hact : inv (state_of (_activateIndex t s)) ->
    exists s', _activateIndex t s = Returns s' /\ index s' = t /\
      _isAnimating s' = false /\ task s' = None /\ calls s' = calls s /\
      markers_are (slides s') (fun i => i = t)).
  { rewrite activateIndex_returns by (apply Hr || exact Ht).
    intros [_ Hm]. simpl in Hm. rewrite Hrest in Hm.
    eexists. split; [reflexivity|]. simpl. conjs; auto. apply Hm. }
  destruct (_getDirectImg a) as [na|] eqn:Ga;
    destruct (_getDirectImg b) as [nb|] eqn:Gb; try exact Hact.
  exfalso. apply Himg. split; [exists a, na | exists b, nb]; auto.
Qed.

Lemma switch_without_image_witness :
  let s := initial photo_then_text (with_callback AnimRipple)
                   (Some three_full) in
  exists s',
    show 1 s = Returns s' /\ index s' = 1 /\ _isAnimating s' = false /\
    task s' = None /\ calls s' = calls s /\
    markers_are (slides s') (fun i => i = 1).
Proof.
  apply switch_without_image.
  - apply reachable_initial. discriminate.
  - reflexivity.
  - unfold valid, slides_length. simpl. lia.
  - discriminate.
  - intros [_ (el & n & Hel & Hn)]. injection Hel as <-. discriminate.
Defined.


(** The timer of a fade from [f] to [t], on a slider the fade has left in
    a state [s1]. *)
Lemma timeout_completes (s1 : slider) f t :
  inv s1 -> task s1 = Some (FadeTimer f t) ->
  let s2 := state_of (handle Timeout s1) in
  task s2 = None /\ index s2 = t /\ _isAnimating s2 = false /\
  calls s2 = calls s1 ++ emitted (opts s1) f t /\
  markers_are (slides s2) (fun i => i = t).
Proof.
  intros Hinv Etask s2.
  destruct (fade_completes s1 f t Hinv Etask) as (Hrest & _).
  destruct (rest_after Timeout s1 _ f t Hinv Etask eq_refl Hrest)
    as (_ & Hi & Ha & Hc & Hm & _).
  conjs; assumption.
Qed.






(** X15: a GPU session that is rejected after it has begun (a texture
    fails to load, a class used after the check is missing, or a frame
    fails to render) hands over to the fade: both slides marked, the index
    unchanged, the timer armed; when the timer fires the transition ends on
    the target with [onChange], if supplied, called once. *)
Theorem rejected_session_falls_back (s : slider) (e : event) f t :
  reachable s ->
  ((exists lib g ok0 ok1 now g',
      task s = Some (TextureLoad f t lib g) /\
      e = Textures ok0 ok1 now /\
      _webglTransition_loaded lib ok0 ok1 g = LoadRejected g') \/
   (exists g start now,
      task s = Some (FrameLoop f t g start) /\ e = Frame now false)) ->
  let s1 := state_of (handle e s) in
  let s2 := state_of (handle Timeout s1) in
  (task s1 = Some (FadeTimer f t) /\ _isAnimating s1 = true /\
   index s1 = index s /\ calls s1 = calls s /\
   markers_are (slides s1) (fun i => i = f \/ i = t)) /\
  (task s2 = None /\ _isAnimating s2 = false /\ index s2 = t /\
   calls s2 = calls s ++ emitted (opts s) f t /\
   markers_are (slides s2) (fun i => i = t)).
Proof.
  intros Hr Hcase s1 s2. apply reachable_inv in Hr.
  pose proof (inv_handle e s Hr) as Hinv1. fold s1 in Hinv1.
  assert (E1 : s1 = state_of (_fadeImages f t s)).
  { subst s1.
    destruct Hcase as [(lib & g & ok0 & ok1 & now & g' & Et & -> & Hl)
                      |(g & start & now & Et & ->)].
    - unfold handle. now rewrite Et, Hl.
    - now rewrite (handle_frame s f t g start now false Et). }
  assert (Ha : _isAnimating s = true).
  { destruct Hr as [_ H].
    destruct Hcase as [(lib & g & ok0 & ok1 & now & g' & Et & _)
                      |(g & start & now & Et & _)];
      rewrite Et in H; apply H. }
  assert (Etask : task s1 = Some (FadeTimer f t)) by now rewrite E1.
  assert (Hfirst : _isAnimating s1 = true /\ index s1 = index s /\
                   calls s1 = calls s /\ opts s1 = opts s)
    by (rewrite E1; simpl; auto).
  destruct Hfirst as (Ha1 & Hi & Hc & Ho).
  destruct (timeout_completes s1 _ _ Hinv1 Etask)
    as (R1 & R2 & R3 & R4 & R5). fold s2 in R1, R2, R3, R4, R5.
  split; conjs; try assumption.
  - destruct Hinv1 as [_ Hm]. rewrite Etask in Hm. apply Hm.
  - now rewrite R4, Hc, Ho.
Qed.

Lemma rejected_session_falls_back_witness :
  let s := run [Show 1]
    (initial two_photos (with_callback AnimWave) (Some three_full)) in
  let s2 := run [Textures true false 50; Timeout] s in
  task s2 = None /\ _isAnimating s2 = false /\ index s2 = 1 /\
  calls s2 = calls s ++ emitted (opts s) 0 1 /\
  markers_are (slides s2) (fun i => i = 1).
Proof.
  apply (rejected_session_falls_back
    (run [Show 1]
       (initial two_photos (with_callback AnimWave) (Some three_full)))
    (Textures true false 50) 0 1).
  - apply reachable_run, reachable_initial. discriminate.
  - left. do 6 eexists. conjs; reflexivity.
Defined.

(** ** Coming to rest, and going round *)

(** X16: whatever state a constructed slider is in, if the pending texture
    load fails, the next frame fails to render and the timer of the
    fallback fade fires, the slider is at rest on the target it was heading
    for, with that slide alone marked. *)
Theorem comes_to_rest (s : slider) :
  reachable s ->
  let s' := run settle s in
  task s' = None /\ _isAnimating s' = false /\
  index s' = destination s /\
  markers_are (slides s') (fun i => i = destination s).
Proof.
  intros Hr s'. apply reachable_inv in Hr.
  destruct (settle_reaches_destination s Hr)
    as ([_ Hm] & _ & Hrest & Ha & Hi).
  fold s' in Hm, Hrest, Ha, Hi. rewrite Hrest in Hm.
  conjs; try assumption. rewrite <- Hi. apply Hm.
Qed.

Lemma comes_to_rest_witness :
  let s := run [Show 1; Textures true true 0; Frame 16 true]
    (initial two_photos (with_callback AnimWave) (Some three_full)) in
  let s' := run settle s in
  task s' = None /\ _isAnimating s' = false /\
  index s' = destination s /\
  markers_are (slides s') (fun i => i = destination s).
Proof.
  apply comes_to_rest. apply reachable_run, reachable_initial. discriminate.
Defined.

(** X17: on the running slider with looping on, starting at rest: as many
    calls of [next] as there are slides, each followed to the end of its
    transition, lead back to the starting index; so do [next] then [prev],
    and [prev] then [next]. *)
Theorem rounds_return (s : slider) :
  reachable s -> task s = None -> opt_loop (opts s) = true ->
  index (run (next_rounds (length (slides s))) s) = index s /\
  index (run ((Next :: settle) ++ (Prev :: settle)) s) = index s /\
  index (run ((Prev :: settle) ++ (Next :: settle)) s) = index s.
Proof.
  intros Hr Hrest Hloop. apply reachable_inv in Hr.
  split; [now apply next_rounds_return | now apply next_prev_rounds_return].
Qed.

Lemma rounds_return_witness :
  let s := initial two_photos (with_callback AnimWave) (Some three_full) in
  index (run (next_rounds (length (slides s))) s) = index s /\
  index (run ((Next :: settle) ++ (Prev :: settle)) s) = index s /\
  index (run ((Prev :: settle) ++ (Next :: settle)) s) = index s.
Proof.
  apply rounds_return; try reflexivity.
  apply reachable_initial. discriminate.
Defined.

(** X18: with looping on, [next] at the last slide asks for slide 0 and
    [prev] at slide 0 asks for the last slide; anywhere else they ask for
    the neighbour. *)
Theorem looping_wraps (s : slider) :
  opt_loop (opts s) = true -> valid s (index s) ->
  next s = show (if index s =? slides_length s - 1 then 0
                 else index s + 1) s /\
  prev s = show (if index s =? 0 then slides_length s - 1
                 else index s - 1) s.
Proof.
  intros Hloop Hv. unfold valid in Hv.
  rewrite next_looping, prev_looping by assumption.
  rewrite next_index_mod, prev_index_mod by assumption. split; f_equal.
  - destruct (Z.eqb_spec (index s) (slides_length s - 1)) as [E|E].
    + replace (index s + 1) with (slides_length s) by lia.
      apply Z_mod_same_full.
    + apply Z.mod_small. lia.
  - destruct (Z.eqb_spec (index s) 0) as [E|E].
    + rewrite E. replace (0 - 1) with (-1 * 1) by lia.
      rewrite <- (Z.mod_add _ 1) by lia.
      replace (-1 * 1 + 1 * slides_length s) with (slides_length s - 1)
        by lia.
      apply Z.mod_small. lia.
    + apply Z.mod_small. lia.
Qed.

Lemma looping_wraps_witness :
  let s := initial two_photos defaultOptions None in
  prev s = show 1 s.
Proof.
  intros s. apply (proj2 (looping_wraps s eq_refl
    ltac:(unfold valid, slides_length; simpl; lia))).
Defined.

(** ** The class [Slider] *)

Lemma Slider_finish_throws (s : slider) f t :
  valid s (index s) -> valid s t ->
  SliderClass.finish f t s =
  Throws (with_isAnimating false (with_index t
    (with_slides (mark t true (mark (index s) false (slides s))) s))).
Proof.
  intros Hi Ht. unfold SliderClass.finish, and_then.
  rewrite activateIndex_returns by assumption. reflexivity.
Qed.

Lemma Slider_show_with_images (s : slider) (t : Z) imp :
  inv s -> task s = None -> t <> index s ->
  has_image s (index s) -> has_image s t ->
  SliderClass.show t (SliderClass.State s imp) =
  match opt_animation (opts s) with
  | AnimNone =>
    SliderClass.lift (_fadeImages (index s) t)
      (SliderClass.State (with_isAnimating true s) imp)
  | AnimWave | AnimRipple =>
    SliderClass.Done
      (SliderClass.State (with_isAnimating true s) (Some (index s, t)))
  end.
Proof.
  intros Hinv Hrest Hne (a & na & Ea & Ga) (b & nb & Eb & Gb).
  unfold SliderClass.show. cbn [SliderClass.base].
  rewrite (idle_of_rest s Hinv Hrest). simpl.
  destruct (Z.eqb_spec t (index s)); [contradiction|].
  rewrite Ea, Eb, Ga, Gb. reflexivity.
Qed.

(** X19: in the class [Slider] a GPU session that is rejected at its start
    (the imports fail, or a class the setup needs is missing or cannot be
    built) is not followed by a fade: the same event puts the slider at
    rest on the target, the target alone marked, and ends in an uncaught
    TypeError for the missing [_emitChange]; [onChange] is not called. *)
Theorem Slider_rejection_switches_at_once (s : slider) (t : Z)
    (lib : option three_lib) (effects_ok : bool) :
  inv s -> task s = None ->
  t <> index s -> valid s t -> has_image s (index s) -> has_image s t ->
  opt_animation (opts s) <> AnimNone ->
  (lib = None \/ effects_ok = false \/
   exists l g, lib = Some l /\ SliderClass.setup l = BeginRejected g) ->
  let st1 := SliderClass.state_after
               (SliderClass.show t (SliderClass.State s None)) in
  SliderClass.importing st1 = Some (index s, t) /\
  _isAnimating (SliderClass.base st1) = true /\
  index (SliderClass.base st1) = index s /\
  exists st2,
    SliderClass.handle (SliderClass.Imported lib effects_ok) st1
      = SliderClass.Uncaught st2 /\
    SliderClass.importing st2 = None /\
    task (SliderClass.base st2) = None /\
    _isAnimating (SliderClass.base st2) = false /\
    index (SliderClass.base st2) = t /\
    calls (SliderClass.base st2) = calls s /\
    markers_are (slides (SliderClass.base st2)) (fun i => i = t).
Proof.
  intros Hinv Hrest Hne Hvt Hf Ht Hanim Hrej st1.
  assert (E1 : st1 = SliderClass.State (with_isAnimating true s)
                       (Some (index s, t))).
  { subst st1. rewrite (Slider_show_with_images s t None Hinv Hrest Hne Hf Ht).
    now destruct (opt_animation (opts s)). }
  rewrite E1. cbn [SliderClass.importing SliderClass.base]. conjs; auto.
  assert (Hfin : SliderClass.lift (SliderClass.finish (index s) t)
      (SliderClass.State (with_isAnimating true s) None) =
    SliderClass.Uncaught (SliderClass.State
      (with_isAnimating false (with_index t (with_slides
         (mark t true (mark (index s) false (slides s)))
         (with_isAnimating true s)))) None)).
  { unfold SliderClass.lift. cbn [SliderClass.base].
    rewrite Slider_finish_throws by (apply Hinv || exact Hvt). reflexivity. }
  eexists. split.
  - unfold SliderClass.handle.
    cbn [SliderClass.importing SliderClass.base].
    destruct Hrej as [->|[->|(l & g & -> & Hs)]].
    + exact Hfin.
    + destruct lib; exact Hfin.
    + rewrite Hs. destruct effects_ok; exact Hfin.
  - simpl. conjs; auto.
    destruct Hinv as [Hv Hm]. rewrite Hrest in Hm. destruct Hm as [_ Hm].
    unfold valid, slides_length in *. markers.
Qed.

Lemma Slider_rejection_switches_at_once_witness :
  let s := initial two_photos (with_callback AnimWave) None in
  let st1 := SliderClass.state_after
               (SliderClass.show 1 (SliderClass.State s None)) in
  exists st2,
    SliderClass.handle (SliderClass.Imported (Some three_full) true) st1
      = SliderClass.Uncaught st2 /\
    SliderClass.importing st2 = None /\
    task (SliderClass.base st2) = None /\
    _isAnimating (SliderClass.base st2) = false /\
    index (SliderClass.base st2) = 1 /\
    calls (SliderClass.base st2) = calls s /\
    markers_are (slides (SliderClass.base st2)) (fun i => i = 1).
Proof.
  apply (Slider_rejection_switches_at_once
    (initial two_photos (with_callback AnimWave) None) 1
    (Some three_full) true).
  - apply inv_initial. discriminate.
  - reflexivity.
  - discriminate.
  - unfold valid, slides_length. simpl. lia.
  - eexists _, _. split; reflexivity.
  - eexists _, _. split; reflexivity.
  - discriminate.
  - right. right. eexists _, _. split; reflexivity.
Defined.

(** X20: in the class [Slider] the frame callback has no try/catch: when
    rendering throws, the error is uncaught, no frame and no timer is
    pending any more, and the animating flag stays set, so that every later
    call of [next], [prev] or [show] and every later event leaves the
    slider exactly as it is. *)
Theorem Slider_render_error_sticks (st : SliderClass.state)
    f t g start (now : Q) :
  task (SliderClass.base st) = Some (FrameLoop f t g start) ->
  _isAnimating (SliderClass.base st) = true ->
  SliderClass.importing st = None ->
  let st' := SliderClass.state_after
               (SliderClass.handle (SliderClass.Ev (Frame now false)) st) in
  SliderClass.handle (SliderClass.Ev (Frame now false)) st
    = SliderClass.Uncaught st' /\
  _isAnimating (SliderClass.base st') = true /\
  index (SliderClass.base st') = index (SliderClass.base st) /\
  forall es, SliderClass.run es st' = st'.
Proof.
  intros Etask Ha Hi st'.
  assert (E : SliderClass.handle (SliderClass.Ev (Frame now false)) st =
    SliderClass.Uncaught
      (SliderClass.State (with_task None (SliderClass.base st)) None)).
  { unfold SliderClass.handle. rewrite Etask, Hi. reflexivity. }
  subst st'. rewrite E. cbn [SliderClass.state_after SliderClass.base].
  conjs; auto.
  set (st' := SliderClass.State _ None).
  assert (Hstep : forall e, SliderClass.handle e st' = SliderClass.Done st').
  { assert (Hshow : forall i, SliderClass.show i st' = SliderClass.Done st').
    { intros i. unfold SliderClass.show. simpl. now rewrite Ha. }
    intros [[| |i| |ok0 ok1 n|n ok]|lib ok]; simpl; try reflexivity.
    - unfold SliderClass.next. destruct (_ && _); [reflexivity|apply Hshow].
    - unfold SliderClass.prev. destruct (_ && _); [reflexivity|apply Hshow].
    - apply Hshow. }
  intros es. induction es as [|e es IH]; [reflexivity|].
  unfold SliderClass.run in *. cbn [fold_left]. now rewrite Hstep.
Qed.

Lemma Slider_render_error_sticks_witness :
  let st := SliderClass.run
    [SliderClass.Ev (Show 1); SliderClass.Imported (Some three_older) true;
     SliderClass.Ev (Textures true true 0)]
    (SliderClass.State (initial two_photos defaultOptions None) None) in
  let st' := SliderClass.state_after
               (SliderClass.handle (SliderClass.Ev (Frame 16 false)) st) in
  SliderClass.run [SliderClass.Ev Next; SliderClass.Ev (Frame 900 true);
                   SliderClass.Ev Timeout] st' = st'.
Proof.
  intros st st'.
  destruct (Slider_render_error_sticks st 0 1
              (Session true Live Live Live Live Live (Num 0) 0 true)
              0 16 eq_refl eq_refl eq_refl) as (_ & _ & _ & H).
  apply H.
Defined.

Lemma Slider_calls_lift (m : js) (st : SliderClass.state) :
  (forall s, calls (state_of (m s)) = calls s) ->
  calls (SliderClass.base (SliderClass.state_after (SliderClass.lift m st)))
  = calls (SliderClass.base st).
Proof.
  intros H. unfold SliderClass.lift. specialize (H (SliderClass.base st)).
  destruct (m (SliderClass.base st)); exact H.
Qed.

Lemma calls_activateIndex (idx : Z) (s : slider) :
  calls (state_of (_activateIndex idx s)) = calls s.
Proof.
  unfold _activateIndex. destruct (slide_at _ (index s)); [|reflexivity].
  simpl. destruct (slide_at _ idx); reflexivity.
Qed.

Lemma Slider_calls_finish f t (s : slider) :
  calls (state_of (SliderClass.finish f t s)) = calls s.
Proof.
  pose proof (calls_activateIndex t s) as H.
  unfold SliderClass.finish, and_then, update, SliderClass._emitChange.
  destruct (_activateIndex t s); exact H.
Qed.

Lemma Slider_calls_then_catch f t (s : slider) :
  calls (state_of (SliderClass.then_catch f t s)) = calls s.
Proof.
  pose proof (Slider_calls_finish f t s) as H.
  unfold SliderClass.then_catch.
  destruct (SliderClass.finish f t s) as [s'|s']; simpl in *; [exact H|].
  now rewrite Slider_calls_finish.
Qed.

Lemma Slider_calls_show (i : Z) (st : SliderClass.state) :
  calls (SliderClass.base (SliderClass.state_after (SliderClass.show i st)))
  = calls (SliderClass.base st).
Proof.
  unfold SliderClass.show. destruct (_ || _); [reflexivity|].
  destruct (slide_at _ (index _)) as [a|]; [|reflexivity].
  destruct (slide_at _ i) as [b|]; [|reflexivity].
  destruct (_getDirectImg a), (_getDirectImg b);
    try (apply Slider_calls_lift; intros; apply calls_activateIndex).
  cbn [opts with_isAnimating]. destruct (opt_animation _); reflexivity.
Qed.

Lemma Slider_calls_handle (e : SliderClass.input) (st : SliderClass.state) :
  calls (SliderClass.base (SliderClass.state_after (SliderClass.handle e st)))
  = calls (SliderClass.base st).
Proof.
  destruct e as [[| |i| |ok0 ok1 n|n ok]|lib ok]; simpl.
  - unfold SliderClass.next. destruct (_ && _); [reflexivity|].
    apply Slider_calls_show.
  - unfold SliderClass.prev. destruct (_ && _); [reflexivity|].
    apply Slider_calls_show.
  - apply Slider_calls_show.
  - destruct (task _) as [[]|]; try reflexivity.
    apply Slider_calls_lift. intros s.
    unfold SliderClass.fade_timeout, and_then, update.
    now rewrite Slider_calls_finish.
  - destruct (task _) as [[]|]; try reflexivity.
    destruct (SliderClass.loaded _ _ _ _); [|reflexivity].
    apply Slider_calls_lift. intros s. unfold and_then, update.
    now rewrite Slider_calls_finish.
  - destruct (task _) as [[]|]; try reflexivity.
    destruct ok; [|reflexivity].
    try unfold step. destruct (lt_1 _); [reflexivity|].
    apply Slider_calls_lift. intros s. unfold and_then, update.
    now rewrite Slider_calls_then_catch.
  - destruct (SliderClass.importing st) as [[f t]|]; [|reflexivity].
    assert (H : calls (SliderClass.base (SliderClass.state_after
        (SliderClass.lift (SliderClass.finish f t)
           (SliderClass.State (SliderClass.base st) None))))
      = calls (SliderClass.base st)).
    { apply (Slider_calls_lift _ (SliderClass.State _ None)).
      intros s. apply Slider_calls_finish. }
    destruct lib as [l|]; [|exact H].
    destruct ok; [|exact H].
    destruct (SliderClass.setup l); [exact H | reflexivity].
Qed.

(** X21: the class [Slider] never calls [onChange].  No sequence of events
    adds to the call log; a fade between two slides with images does end at
    rest on the target, with the target alone marked, but its timer
    callback ends in an uncaught TypeError where the call should be. *)
Theorem Slider_never_notifies :
  (forall es st,
     calls (SliderClass.base (SliderClass.run es st))
     = calls (SliderClass.base st)) /\
  (forall s t,
     inv s -> task s = None -> t <> index s -> valid s t ->
     has_image s (index s) -> has_image s t ->
     opt_animation (opts s) = AnimNone ->
     let st1 := SliderClass.state_after
                  (SliderClass.show t (SliderClass.State s None)) in
     task (SliderClass.base st1) = Some (FadeTimer (index s) t) /\
     exists st2,
       SliderClass.handle (SliderClass.Ev Timeout) st1
         = SliderClass.Uncaught st2 /\
       task (SliderClass.base st2) = None /\
       _isAnimating (SliderClass.base st2) = false /\
       index (SliderClass.base st2) = t /\
       markers_are (slides (SliderClass.base st2)) (fun i => i = t)).
Proof.
  split.
  - intros es. induction es as [|e es IH]; intros st; [reflexivity|].
    unfold SliderClass.run in *. cbn [fold_left].
    rewrite IH. apply Slider_calls_handle.
  - intros s t Hinv Hrest Hne Hvt Hf Ht Hanim st1.
    assert (E1 : st1 = SliderClass.State
      (state_of (_fadeImages (index s) t (with_isAnimating true s))) None).
    { subst st1.
      rewrite (Slider_show_with_images s t None Hinv Hrest Hne Hf Ht), Hanim.
      reflexivity. }
    rewrite E1. split; [reflexivity|].
    destruct Hinv as [Hv Hm]. rewrite Hrest in Hm. destruct Hm as [_ Hm].
    unfold valid, slides_length in *.
    eexists. split.
    + unfold SliderClass.handle, SliderClass.lift,
        SliderClass.fade_timeout, and_then, update. simpl.
      rewrite Slider_finish_throws
        by (unfold valid, slides_length; simpl; rewrite !length_mark; lia).
      reflexivity.
    + simpl. conjs; auto. markers.
Qed.

Lemma Slider_never_notifies_witness :
  let s := initial two_photos (with_callback AnimNone) None in
  let st1 := SliderClass.state_after
               (SliderClass.show 1 (SliderClass.State s None)) in
  task (SliderClass.base st1) = Some (FadeTimer (index s) 1) /\
  exists st2,
    SliderClass.handle (SliderClass.Ev Timeout) st1
      = SliderClass.Uncaught st2 /\
    task (SliderClass.base st2) = None /\
    _isAnimating (SliderClass.base st2) = false /\
    index (SliderClass.base st2) = 1 /\
    markers_are (slides (SliderClass.base st2)) (fun i => i = 1).
Proof.
  apply (proj2 Slider_never_notifies
    (initial two_photos (with_callback AnimNone) None) 1).
  - apply inv_initial. discriminate.
  - reflexivity.
  - discriminate.
  - unfold valid, slides_length. simpl. lia.
  - eexists _, _. split; reflexivity.
  - eexists _, _. split; reflexivity.
  - reflexivity.
Defined.
